(** * Word-Pronouncer: the dictionary lookup component [src/App.tsx]

    A shallow embedding of the React component [App]: its state, the
    asynchronous [searchWord] handler, the load of the recent-searches
    list on mount, and the text content of the rendered result.

    Conventions.
    - A JavaScript string is a sequence of code units; the embedding keeps
      the code units below 256 (the Latin-1 range), one [ascii] each.
      [trim] and [toLowerCase] are the ECMAScript functions restricted to
      that range.
    - What the browser answers (the outcome of [fetch], of
      [response.json()], of [localStorage.getItem] and [JSON.parse]) is an
      input of the model.
    - State updates issued by one continuation of [searchWord] are applied
      together (React batches them), so a lookup is two atomic steps: the
      synchronous prefix up to [await fetch], and the rest once the
      request has settled.  Between the two, other events may come in.
    - The model follows the state, not the render that comes after each
      change: a truthy [wordData] that lacks the [phonetics] or [meanings]
      array makes the JSX throw, where the model goes on.  The model so has
      more runs than the component, never fewer.
    - The audio and speech calls are outside the model. *)

From Stdlib Require Import Ascii ZArith.
From stdpp Require Import base decidable option list strings gmap.

#[global] Set Warnings "-register-all".

(** ** JavaScript values and the built-ins the component calls *)

Module JS.

(** [WhiteSpace] and [LineTerminator] code units below 256: TAB, LF, VT,
    FF, CR, SP, NBSP. *)
Definition is_white_space (c : ascii) : bool :=
  bool_decide (c ∈ ["009"; "010"; "011"; "012"; "013"; " "; "160"]%char).

Fixpoint trimStart (s : string) : string :=
  match s with
  | EmptyString => EmptyString
  | String c s' => if is_white_space c then trimStart s' else s
  end.

Fixpoint trimEnd (s : string) : string :=
  match s with
  | EmptyString => EmptyString
  | String c s' =>
      match trimEnd s' with
      | EmptyString =>
          if is_white_space c then EmptyString else String c EmptyString
      | t => String c t
      end
  end.

(** [String.prototype.trim] *)
Definition trim (s : string) : string := trimEnd (trimStart s).

(** Strings made of white space only; the empty string is one. *)
Fixpoint all_white_space (s : string) : bool :=
  match s with
  | EmptyString => true
  | String c s' => is_white_space c && all_white_space s'
  end.

(** Lower-case mapping of one code unit: A-Z, and the Latin-1 capitals
    U+00C0..U+00DE except the multiplication sign U+00D7. *)
Definition lower_unit (c : ascii) : ascii :=
  let n := N_of_ascii c in
  if ((65 <=? n) && (n <=? 90))%N
     || ((192 <=? n) && (n <=? 222) && negb (n =? 215))%N
  then ascii_of_N (n + 32)
  else c.

(** [String.prototype.toLowerCase] *)
Fixpoint toLowerCase (s : string) : string :=
  match s with
  | EmptyString => EmptyString
  | String c s' => String (lower_unit c) (toLowerCase s')
  end.

(** [Array.prototype.join] on an array of strings. *)
Fixpoint join (sep : string) (l : list string) : string :=
  match l with
  | [] => ""
  | [x] => x
  | x :: l' => x +:+ sep +:+ join sep l'
  end.

(** A JavaScript value as [JSON.parse] and property access produce it.
    Numbers are kept as integers: the component only tests them for
    truthiness.  An object lists its properties in source order. *)
Inductive value : Type :=
| VUndefined
| VNull
| VBool (b : bool)
| VNum (n : Z)
| VStr (s : string)
| VArr (elems : list value)
| VObj (props : list (string * value)).

(** [ToBoolean] *)
Definition truthy (v : value) : bool :=
  match v with
  | VUndefined | VNull => false
  | VBool b => b
  | VNum n => negb (n =? 0)%Z
  | VStr s => negb (bool_decide (s = ""))
  | VArr _ | VObj _ => true
  end.

(** Truthiness of an optional string ([string | null], [text?: string]). *)
Definition truthy_str (o : option string) : bool :=
  match o with
  | Some s => negb (bool_decide (s = ""))
  | None => false
  end.

Inductive exn : Type :=
| TypeError
| SyntaxError
| Error (message : string).

(** Outcome of evaluating an expression or awaiting a promise. *)
Inductive completion (A : Type) : Type :=
| Normal (a : A)
| Throw (e : exn).
Arguments Normal {A} a.
Arguments Throw {A} e.

(** Own property ["0"] of an object built by [JSON.parse]: of several
    properties with one key the last one is kept. *)
Definition own_prop (key : string) (props : list (string * value)) : value :=
  match list_find (λ p, p.1 = key) (reverse props) with
  | Some (_, (_, v)) => v
  | None => VUndefined
  end.

(** The expression [data[0]]. *)
Definition member0 (data : value) : completion value :=
  match data with
  | VUndefined | VNull => Throw TypeError
  | VBool _ | VNum _ => Normal VUndefined
  | VStr EmptyString => Normal VUndefined
  | VStr (String c _) => Normal (VStr (String c EmptyString))
  | VArr [] => Normal VUndefined
  | VArr (v :: _) => Normal v
  | VObj props => Normal (own_prop "0" props)
  end.

End JS.

(** ** History tracker: the updater passed to [setSearchHistory] *)

Module History.

(** [prev => [word, ...prev.filter(item => item !== word)].slice(0, 5)] *)
Definition record (word : string) (prev : list string) : list string :=
  take 5 (word :: filter (λ item, item ≠ word) prev).

(** Number of entries of [l] equal to [x]. *)
Definition occurrences (x : string) (l : list string) : nat :=
  length (filter (λ item, item = x) l).

End History.


(** ** Query controller: component state and [searchWord] *)

Module Controller.
Import JS.

(** The five [useState] cells.  [wordData] is declared [WordData | null];
    at run time it holds whatever [data[0]] evaluated to. *)
Record State : Type := mkState {
  searchTerm : string;
  wordData : value;
  loading : bool;
  error : option string;
  searchHistory : list string
}.

Definition initial : State :=
  {| searchTerm := ""; wordData := VNull; loading := false;
     error := None; searchHistory := [] |}.

(** Computations over the component state that may throw; a state update
    made before a throw stays. *)
Definition M (A : Type) : Type := State → completion A * State.

#[global] Instance M_ret : MRet M := λ A a st, (Normal a, st).

#[global] Instance M_bind : MBind M := λ A B f m st,
  match m st with
  | (Normal a, st') => f a st'
  | (Throw e, st') => (Throw e, st')
  end.

Definition throw {A} (e : exn) : M A := λ st, (Throw e, st).

(** [await p], for a promise [p] that has settled. *)
Definition await {A} (p : completion A) : M A := λ st, (p, st).

(** An expression whose evaluation gives [r]. *)
Definition evaluate {A} (r : completion A) : M A := λ st, (r, st).

(** [try { body } catch (err) { handler } finally { cleanup }] *)
Definition try_catch_finally {A}
    (body : M A) (handler : exn → M A) (cleanup : M unit) : M A := λ st,
  let '(r, st1) :=
    match body st with
    | (Throw e, st') => handler e st'
    | normal => normal
    end in
  match cleanup st1 with
  | (Normal _, st2) => (r, st2)
  | (Throw e, st2) => (Throw e, st2)
  end.

Definition setSearchTerm (v : string) : M unit := λ st,
  (Normal (), {| searchTerm := v; wordData := wordData st;
                 loading := loading st; error := error st;
                 searchHistory := searchHistory st |}).

Definition setWordData (v : value) : M unit := λ st,
  (Normal (), {| searchTerm := searchTerm st; wordData := v;
                 loading := loading st; error := error st;
                 searchHistory := searchHistory st |}).

Definition setLoading (v : bool) : M unit := λ st,
  (Normal (), {| searchTerm := searchTerm st; wordData := wordData st;
                 loading := v; error := error st;
                 searchHistory := searchHistory st |}).

Definition setError (v : option string) : M unit := λ st,
  (Normal (), {| searchTerm := searchTerm st; wordData := wordData st;
                 loading := loading st; error := v;
                 searchHistory := searchHistory st |}).

(** [setSearchHistory(prev => ...)], the functional form. *)
Definition setSearchHistory (f : list string → list string) : M unit := λ st,
  (Normal (), {| searchTerm := searchTerm st; wordData := wordData st;
                 loading := loading st; error := error st;
                 searchHistory := f (searchHistory st) |}).

(** The [Response] object as far as [searchWord] reads it: the [ok] flag
    and what [response.json()] settles to. *)
Record Response : Type := mkResponse {
  ok : bool;
  json : completion value
}.

(** What [fetch] settles to: a response, or a rejection (network failure). *)
Definition FetchOutcome : Type := completion Response.

(** An entry of the service's answer for [headword], with no phonetics
    and no meanings, and the 2xx answer that holds just this entry. *)
Definition bare_record (headword : string) : value :=
  VObj [("word", VStr headword); ("phonetics", VArr []); ("meanings", VArr [])].

Definition found (headword : string) : FetchOutcome :=
  Normal {| ok := true; json := Normal (VArr [bare_record headword]) |}.

Definition not_found_message : string :=
  "Word not found. Please check the spelling and try again.".

(** The template literal passed to [fetch]. *)
Definition fetch_url (word : string) : string :=
  "https://api.dictionaryapi.dev/api/v2/entries/en/" +:+ toLowerCase word.

(** [searchWord] up to [await fetch(...)]: the URL requested, or [None]
    when the function returned at its first line. *)
Definition searchWord_begin (word : string) : M (option string) :=
  if bool_decide (trim word = "") then mret None
  else
    setLoading true;;
    setError None;;
    mret (Some (fetch_url word)).

(** [searchWord] from the point where the [fetch] promise has settled. *)
Definition searchWord_resume (word : string) (o : FetchOutcome) : M unit :=
  try_catch_finally
    (response ← await o;
     if negb (ok response) then throw (Error "Word not found")
     else
       data ← await (json response);
       first ← evaluate (member0 data);
       setWordData first;;
       setSearchHistory (History.record word))
    (λ err,
       setError (Some not_found_message);;
       setWordData VNull)
    (setLoading false).

(** One call [searchWord(word)] run to its end, the request settling
    to [o]. *)
Definition searchWord (word : string) (o : FetchOutcome) : M unit :=
  url ← searchWord_begin word;
  match url with
  | None => mret ()
  | Some _ => searchWord_resume word o
  end.


(** State the call leaves behind. *)
Definition after {A} (m : M A) (st : State) : State := (m st).2.

(** What the JSX guards [error && ...] and [wordData && ...] let through. *)
Definition shows_error (st : State) : bool := truthy_str (error st).
Definition shows_word (st : State) : bool := truthy (wordData st).

(** *** The component between events

    A request that has been issued and not yet settled remembers the
    [word] its continuation closes over. *)
Record Request : Type := mkRequest {
  req_word : string;
  req_url : string
}.

Record Config : Type := mkConfig {
  ui : State;
  pending : list Request
}.

Inductive Event : Type :=
| Typed (text : string)
| Submitted
| HistoryClicked (index : nat)
| Settled (index : nat) (o : FetchOutcome).

(** A call of [searchWord] from an event handler. *)
Definition call_searchWord (word : string) (c : Config) : Config :=
  match searchWord_begin word (ui c) with
  | (Normal (Some url), st) =>
      {| ui := st;
         pending := pending c ++ [{| req_word := word; req_url := url |}] |}
  | (_, st) => {| ui := st; pending := pending c |}
  end.

(** [onChange], [handleSubmit], the [onClick] of a recent-search button,
    and the continuation of a settled request.  [None]: the event cannot
    occur (no such button, no such request).  The submit button is
    disabled while [loading]; the recent-search buttons are not. *)
Definition step (e : Event) (c : Config) : option Config :=
  match e with
  | Typed text =>
      Some {| ui := after (setSearchTerm text) (ui c); pending := pending c |}
  | Submitted =>
      Some (call_searchWord (searchTerm (ui c)) c)
  | HistoryClicked index =>
      term ← searchHistory (ui c) !! index;
      Some (call_searchWord term
              {| ui := after (setSearchTerm term) (ui c);
                 pending := pending c |})
  | Settled index o =>
      r ← pending c !! index;
      Some {| ui := after (searchWord_resume (req_word r) o) (ui c);
              pending := delete index (pending c) |}
  end.

Fixpoint run (events : list Event) (c : Config) : option Config :=
  match events with
  | [] => Some c
  | e :: events' => c' ← step e c; run events' c'
  end.

(** Does the event call [searchWord]? *)
Definition starts_search (e : Event) : bool :=
  match e with
  | Submitted | HistoryClicked _ => true
  | Typed _ | Settled _ _ => false
  end.

(** Runs in which a search is started only while no request is pending. *)
Fixpoint run_one_at_a_time (events : list Event) (c : Config) : option Config :=
  match events with
  | [] => Some c
  | e :: events' =>
      if starts_search e && negb (bool_decide (pending c = [])) then None
      else c' ← step e c; run_one_at_a_time events' c'
  end.

(** One lookup at most is pending, with the error clear while it is; with
    none pending, a record and an error are not shown together. *)
Definition one_at_a_time_inv (c : Config) : Prop :=
  match pending c with
  | [] => ¬ (shows_word (ui c) = true ∧ shows_error (ui c) = true)
  | [_] => error (ui c) = None
  | _ => False
  end.

(** *** Mount: the effect that loads the history *)

(** An entry of [localStorage]: its text and what [JSON.parse] makes
    of it. *)
Record StoredItem : Type := mkStoredItem {
  raw : string;
  parsed : completion value
}.

(** A parsed value read at type [string[]]. *)
Definition as_strings (v : value) : option (list string) :=
  match v with
  | VArr elems =>
      mapM (λ e, match e with VStr s => Some s | _ => None end) elems
  | _ => None
  end.

Inductive LoadResult : Type :=
| Loaded (st : State)
| LoadThrew (e : exn)
| LoadIllTyped (v : value).

(** [const saved = localStorage.getItem('dictionaryHistory');
     if (saved) setSearchHistory(JSON.parse(saved));]
    [saved] is [None] when [getItem] returns [null].  [LoadIllTyped]: the
    history cell now holds a value that is no array of strings. *)
Definition load (saved : option StoredItem) (st : State) : LoadResult :=
  match saved with
  | None => Loaded st
  | Some item =>
      if bool_decide (raw item = "") then Loaded st
      else
        match parsed item with
        | Throw e => LoadThrew e
        | Normal v =>
            match as_strings v with
            | Some h => Loaded (after (setSearchHistory (λ _, h)) st)
            | None => LoadIllTyped v
            end
        end
  end.

(** Nothing is stored under the key. *)
Definition stored_missing (saved : option StoredItem) : Prop :=
  saved = None.

(** The stored text is no JSON text. *)
Definition stored_corrupt (saved : option StoredItem) : Prop :=
  ∃ item e, saved = Some item ∧ parsed item = Throw e.

(** The component once mounted with history [h]. *)
Definition mounted (h : list string) : Config :=
  {| ui := after (setSearchHistory (λ _, h)) initial; pending := [] |}.

End Controller.
(** ** Result renderer: the text content of the word card *)

Module Renderer.
Import JS.

Record Definition_ : Type := mkDefinition {
  definition : string;
  example : option string;
  synonyms : option (list string);
  antonyms : option (list string)
}.

Record Meaning : Type := mkMeaning {
  partOfSpeech : string;
  definitions : list Definition_
}.

Record Phonetic : Type := mkPhonetic {
  text : option string;
  audio : option string
}.

Record WordData : Type := mkWordData {
  word : string;
  phonetics : list Phonetic;
  meanings : list Meaning;
  origin : option string
}.

(** What one definition block shows. *)
Record DefinitionView : Type := mkDefinitionView {
  number : nat;
  body : string;
  example_line : option string;
  synonyms_line : option string;
  antonyms_line : option string
}.

Record MeaningView : Type := mkMeaningView {
  label : string;
  items : list DefinitionView
}.

Record WordView : Type := mkWordView {
  headword : string;
  phonetic_line : option string;
  play_audio : option string;
  pronounce : string;
  origin_block : option string;
  meaning_blocks : list MeaningView
}.

(** [s && (...)] for an optional string [s]. *)
Definition when_truthy (o : option string) : option string :=
  if truthy_str o then o else None.

(** [xs && xs.length > 0 && xs.slice(0, 5).join(', ')] *)
Definition related_line (xs : option (list string)) : option string :=
  match xs with
  | Some l =>
      if bool_decide (0 < length l) then Some (join ", " (take 5 l)) else None
  | None => None
  end.

(** The body of [meaning.definitions.map((definition, defIndex) => ...)]. *)
Definition render_definition (defIndex : nat) (d : Definition_) : DefinitionView :=
  {| number := defIndex + 1;
     body := definition d;
     example_line := when_truthy (example d);
     synonyms_line := related_line (synonyms d);
     antonyms_line := related_line (antonyms d) |}.

Definition render_definitions (ds : list Definition_) : list DefinitionView :=
  imap render_definition ds.

Definition render_meaning (m : Meaning) : MeaningView :=
  {| label := partOfSpeech m;
     items := render_definitions (definitions m) |}.

(** [phonetics.length > 0 && phonetics[0].text && (...)] *)
Definition render_phonetic_text (ps : list Phonetic) : option string :=
  match ps with
  | [] => None
  | p :: _ => when_truthy (text p)
  end.

(** [phonetics.find(p => p.audio)], and the URL its button plays. *)
Definition find_audio (ps : list Phonetic) : option string :=
  match list_find (λ p, truthy_str (audio p) = true) ps with
  | Some (_, p) => audio p
  | None => None
  end.

Definition render_word (w : WordData) : WordView :=
  {| headword := word w;
     phonetic_line := render_phonetic_text (phonetics w);
     play_audio := find_audio (phonetics w);
     pronounce := word w;
     origin_block := when_truthy (origin w);
     meaning_blocks := render_meaning <$> meanings w |}.

(** The reading "first available phonetic text": the text of the first
    entry, in order, that carries one. *)
Definition first_available_text (ps : list Phonetic) : option string :=
  head (omap text ps).

End Renderer.
(** * Properties *)

(** ** The stored history: the effect that writes it, and its text *)

Module Persistence.
Import JS Controller.

Definition dquote : ascii := "034"%char.
Definition backslash : ascii := "092"%char.

(** The digit of [n < 16], in lower case, as [JSON.stringify] prints it. *)
Definition hex_digit (n : N) : ascii :=
  match n with
  | 0 => "0" | 1 => "1" | 2 => "2" | 3 => "3" | 4 => "4" | 5 => "5"
  | 6 => "6" | 7 => "7" | 8 => "8" | 9 => "9" | 10 => "a" | 11 => "b"
  | 12 => "c" | 13 => "d" | 14 => "e" | _ => "f"
  end%N%char.

(** One code unit inside a JSON string literal ([QuoteJSONString]): the
    two-character escapes, [\u00xx] for the other control characters,
    the unit itself otherwise. *)
Definition quote_unit (c : ascii) : string :=
  match c with
  | "008" => String backslash "b"
  | "009" => String backslash "t"
  | "010" => String backslash "n"
  | "012" => String backslash "f"
  | "013" => String backslash "r"
  | "034" => String backslash (String dquote "")
  | "092" => String backslash (String backslash "")
  | _ =>
      let n := N_of_ascii c in
      if (n <? 32)%N
      then String backslash
             (String "u" (String "0" (String "0"
                (String (hex_digit (n / 16)) (String (hex_digit (n mod 16)) "")))))
      else String c ""
  end%char.

Fixpoint quote_units (s : string) : string :=
  match s with
  | EmptyString => EmptyString
  | String c s' => quote_unit c +:+ quote_units s'
  end.

Definition QuoteJSONString (s : string) : string :=
  String dquote (quote_units s +:+ String dquote "").

(** [JSON.stringify] of an array of strings. *)
Definition JSON_stringify (h : list string) : string :=
  "[" +:+ join "," (QuoteJSONString <$> h) +:+ "]".

(** Value of a hexadecimal digit, either case. *)
Definition hex_value (c : ascii) : option N :=
  let n := N_of_ascii c in
  if ((48 <=? n) && (n <=? 57))%N then Some (n - 48)%N
  else if ((97 <=? n) && (n <=? 102))%N then Some (n - 87)%N
  else if ((65 <=? n) && (n <=? 70))%N then Some (n - 55)%N
  else None.

(** The code unit [\uabcd] stands for, when it is below 256. *)
Definition unicode_escape (a b c d : ascii) : option ascii :=
  a ← hex_value a; b ← hex_value b; c ← hex_value c; d ← hex_value d;
  let n := (((a * 16 + b) * 16 + c) * 16 + d)%N in
  if (n <? 256)%N then Some (ascii_of_N n) else None.

(** [c] put in front of the string being read. *)
Definition put (c : ascii) (r : option (list string)) : option (list string) :=
  match r with
  | Some (x :: l) => Some (String c x :: l)
  | _ => None
  end.

(** Reading the elements of a compact array of string literals, from
    inside a literal on: the strings from the current one to the last.
    JSON grammar: a control character is not allowed unescaped. *)
Fixpoint read_elements (s : string) : option (list string) :=
  match s with
  | EmptyString => None
  | String c rest =>
      if bool_decide (c = dquote) then
        match rest with
        | String "]" EmptyString => Some [""]
        | String "," (String q rest') =>
            if bool_decide (q = dquote)
            then l ← read_elements rest'; Some ("" :: l)
            else None
        | _ => None
        end
      else if bool_decide (c = backslash) then
        match rest with
        | String e rest' =>
            if bool_decide (e = "u"%char) then
              match rest' with
              | String a (String b (String c' (String d rest''))) =>
                  u ← unicode_escape a b c' d; put u (read_elements rest'')
              | _ => None
              end
            else
              match e with
              | "b" => put "008" (read_elements rest')
              | "t" => put "009" (read_elements rest')
              | "n" => put "010" (read_elements rest')
              | "f" => put "012" (read_elements rest')
              | "r" => put "013" (read_elements rest')
              | "/" => put "/" (read_elements rest')
              | "034" => put "034" (read_elements rest')
              | "092" => put "092" (read_elements rest')
              | _ => None
              end%char
        | EmptyString => None
        end
      else if (N_of_ascii c <? 32)%N then None
      else put c (read_elements rest)
  end.

(** [JSON.parse] on the texts that are a compact array of string
    literals, as [JSON.stringify] writes them; [None] for any other text
    (which [JSON.parse] may accept or reject). *)
Definition parse_string_array (s : string) : option (list string) :=
  match s with
  | String "[" (String "]" EmptyString) => Some []
  | String "[" (String q rest) =>
      if bool_decide (q = dquote) then read_elements rest else None
  | _ => None
  end.

Definition storage_key : string := "dictionaryHistory".

(** The second effect:
    [localStorage.setItem('dictionaryHistory', JSON.stringify(searchHistory))] *)
Definition persist (st : State) (localStorage : gmap string string)
  : gmap string string :=
  <[storage_key := JSON_stringify (searchHistory st)]> localStorage.

(** [localStorage.getItem('dictionaryHistory')], with what a given
    [JSON.parse] makes of the text. *)
Definition getItem (parse : string → completion value)
    (localStorage : gmap string string) : option StoredItem :=
  (λ text, {| raw := text; parsed := parse text |})
    <$> localStorage !! storage_key.

(** A [JSON.parse] that reads compact string arrays and rejects the
    rest. *)
Definition parse_compact (text : string) : completion value :=
  match parse_string_array text with
  | Some h => Normal (VArr (VStr <$> h))
  | None => Throw SyntaxError
  end.

End Persistence.

(** ** The form, the recent searches and the part-of-speech badge *)

Module Screen.
Import JS Controller.

(** [disabled={loading || !searchTerm.trim()}] on the submit button. *)
Definition submit_disabled (st : State) : bool :=
  loading st || bool_decide (trim (searchTerm st) = "").

(** [searchHistory.length > 0 && ...]: the terms of the recent-search
    buttons, when the block is shown. *)
Definition recent_searches (st : State) : option (list string) :=
  if bool_decide (0 < length (searchHistory st))
  then Some (searchHistory st)
  else None.

(** The object literal [colors] of [getPartOfSpeechColor]. *)
Definition colors : gmap string string :=
  list_to_map
    [ ("noun", "bg-blue-100 text-blue-800");
      ("verb", "bg-green-100 text-green-800");
      ("adjective", "bg-purple-100 text-purple-800");
      ("adverb", "bg-orange-100 text-orange-800");
      ("pronoun", "bg-pink-100 text-pink-800");
      ("preposition", "bg-indigo-100 text-indigo-800");
      ("conjunction", "bg-yellow-100 text-yellow-800");
      ("interjection", "bg-red-100 text-red-800") ].

(** The properties an object literal inherits from [Object.prototype];
    each is a function, or the prototype itself, hence truthy. *)
Definition object_prototype : list string :=
  [ "constructor"; "__defineGetter__"; "__defineSetter__"; "hasOwnProperty";
    "__lookupGetter__"; "__lookupSetter__"; "isPrototypeOf";
    "propertyIsEnumerable"; "toString"; "valueOf"; "__proto__";
    "toLocaleString" ].

Definition default_color : string := "bg-gray-100 text-gray-800".

(** What [getPartOfSpeechColor] returns: a class string, or the inherited
    property found under the key. *)
Inductive BadgeClass : Type :=
| ClassName (classes : string)
| Inherited (property : string).

(** [colors[pos.toLowerCase()] || 'bg-gray-100 text-gray-800'] *)
Definition getPartOfSpeechColor (pos : string) : BadgeClass :=
  let key := toLowerCase pos in
  match colors !! key with
  | Some classes =>
      if truthy_str (Some classes) then ClassName classes
      else ClassName default_color
  | None =>
      if bool_decide (key ∈ object_prototype) then Inherited key
      else ClassName default_color
  end.

End Screen.

(** ** What holds of the component between events *)

Module Invariants.
Import JS Controller.

(** A request as [searchWord] issues it: for a term that is not blank, to
    the URL of that term. *)
Definition request_ok (r : Request) : Prop :=
  trim (req_word r) ≠ "" ∧ req_url r = fetch_url (req_word r).

(** Every pending request is well formed and no history entry is blank. *)
Definition terms_ok (c : Config) : Prop :=
  Forall request_ok (pending c)
  ∧ Forall (λ term, trim term ≠ "") (searchHistory (ui c)).

(** With one lookup at a time, [loading] tells whether one is pending. *)
Definition loading_tracks_pending (c : Config) : Prop :=
  match pending c with
  | [] => loading (ui c) = false
  | [_] => loading (ui c) = true
  | _ => False
  end.

End Invariants.

Import JS Controller Renderer.

(** ** History tracker *)

Section record_properties.

Implicit Types (term : string) (history : list string).

Lemma filter_ne_remove term history :
  filter (λ item, item ≠ term) history = List.remove String.string_dec term history.
Proof.
  induction history as [|x history IH]; [done|].
  rewrite filter_cons. simpl.
  destruct (String.string_dec term x) as [->|Hne].
  - rewrite decide_False by (intros H; by apply H). exact IH.
  - rewrite decide_True by congruence. by rewrite IH.
Qed.

Lemma occurrences_absent term (l : list string) :
  Forall (λ item, item ≠ term) l → History.occurrences term l = 0.
Proof.
  unfold History.occurrences. induction 1 as [|x l Hx _ IH]; [done|].
  by rewrite filter_cons_False.
Qed.

Lemma record_head term history : head (History.record term history) = Some term.
Proof. done. Qed.

Lemma record_occurrences term history :
  History.occurrences term (History.record term history) = 1.
Proof.
  unfold History.record. cbn [take].
  unfold History.occurrences. rewrite filter_cons_True by done. cbn [length].
  f_equal. apply occurrences_absent, Forall_take, Forall_forall.
  intros x Hx%list_elem_of_filter. tauto.
Qed.

Lemma record_length term history : length (History.record term history) ≤ 5.
Proof. unfold History.record. rewrite length_take. lia. Qed.

End record_properties.

Section history_bound.

Implicit Types (c : Config) (st : State).

(** A settled request leaves the history alone or records its word. *)
Lemma resume_history st word o :
  let st' := after (searchWord_resume word o) st in
  searchHistory st' = searchHistory st
  ∨ searchHistory st' = History.record word (searchHistory st).
Proof.
  cbv zeta.
  unfold after, searchWord_resume, try_catch_finally, mbind, M_bind, await,
    evaluate.
  destruct o as [[[] [data|e]]|e]; simpl; auto.
  destruct (member0 data); simpl; auto.
Qed.

Lemma call_searchWord_history word c :
  searchHistory (ui (call_searchWord word c)) = searchHistory (ui c).
Proof.
  unfold call_searchWord, searchWord_begin.
  by destruct (bool_decide (trim word = "")).
Qed.

Lemma step_history_bound (n : nat) e c c' :
  5 ≤ n → step e c = Some c' →
  length (searchHistory (ui c)) ≤ n → length (searchHistory (ui c')) ≤ n.
Proof.
  intros Hn Hstep Hlen. destruct e as [text| |index|index o]; simpl in Hstep.
  - by injection Hstep as <-.
  - injection Hstep as <-. by rewrite call_searchWord_history.
  - destruct (searchHistory (ui c) !! index) as [term|]; [|done].
    simpl in Hstep. injection Hstep as <-. by rewrite call_searchWord_history.
  - destruct (pending c !! index) as [r|]; [|done].
    simpl in Hstep. injection Hstep as <-. simpl.
    destruct (resume_history (ui c) (req_word r) o) as [->| ->]; [done|].
    pose proof (record_length (req_word r) (searchHistory (ui c))). lia.
Qed.

Lemma run_history_bound (n : nat) events c c' :
  5 ≤ n → run events c = Some c' →
  length (searchHistory (ui c)) ≤ n → length (searchHistory (ui c')) ≤ n.
Proof.
  intros Hn. revert c. induction events as [|e events IH]; intros c Hrun Hlen.
  - by injection Hrun as <-.
  - simpl in Hrun. destruct (step e c) as [c1|] eqn:Hstep; [|done].
    simpl in Hrun. apply (IH c1); [done|]. by eapply step_history_bound.
Qed.

End history_bound.

(** C1. For every history list and every term, [record] puts the term at
    the front, drops every earlier occurrence of exactly that term (the
    other entries keep their order) so that the term occurs once, and keeps
    the first five entries; the result is never longer than five, and so
    the history of the component, started with at most five entries, never
    grows beyond five.  History [b; a; c; d; e] with [a] searched gives
    [a; b; c; d; e], and history [e; d; c; b; a] with [f] searched gives
    [f; e; d; c; b]. *)
Theorem record_front_once_capped (term : string) (history : list string) :
  History.record term history
    = take 5 (term :: List.remove String.string_dec term history)
  ∧ head (History.record term history) = Some term
  ∧ History.occurrences term (History.record term history) = 1
  ∧ length (History.record term history) ≤ 5
  ∧ (∀ events c,
       run events (mounted history) = Some c →
       length (searchHistory (ui c)) ≤ max 5 (length history))
  ∧ History.record "a" ["b"; "a"; "c"; "d"; "e"] = ["a"; "b"; "c"; "d"; "e"]
  ∧ History.record "f" ["e"; "d"; "c"; "b"; "a"] = ["f"; "e"; "d"; "c"; "b"].
Proof.
  split_and!.
  - unfold History.record. by rewrite filter_ne_remove.
  - apply record_head.
  - apply record_occurrences.
  - apply record_length.
  - intros events c Hrun.
    apply (run_history_bound _ events (mounted history) c); [lia|done|].
    simpl. lia.
  - reflexivity.
  - reflexivity.
Qed.

Lemma record_front_once_capped_witness :
  let found v :=
    Normal {| ok := true; json := Normal (VArr [bare_record v]) |} in
  let c := {| ui := {| searchTerm := "f";
                       wordData := bare_record "f";
                       loading := false; error := None;
                       searchHistory := ["f"; "e"; "d"; "c"; "b"] |};
              pending := [] |} in
  run [Typed "f"; Submitted; Settled 0 (found "f")]
      (mounted ["e"; "d"; "c"; "b"; "a"]) = Some c
  ∧ length (searchHistory (ui c)) ≤ 5.
Proof.
  intros found c. split; [reflexivity|].
  apply (proj1 (proj2 (proj2 (proj2 (proj2
           (record_front_once_capped "f" ["e"; "d"; "c"; "b"; "a"])))))
           [Typed "f"; Submitted; Settled 0 (found "f")] c).
  reflexivity.
Defined.

(** ** Load of the stored history *)

(** C2, as claimed, fails: a stored text that [JSON.parse] rejects makes
    the load effect throw instead of leaving the empty list. *)
Lemma load_corrupt_not_empty :
  ¬ (∀ saved : option StoredItem,
       stored_missing saved ∨ stored_corrupt saved →
       ∃ st, load saved initial = Loaded st ∧ searchHistory st = []).
Proof.
  intros H.
  destruct (H (Some {| raw := "{oops"; parsed := Throw SyntaxError |}))
    as (st & Hload & _).
  - right. by exists {| raw := "{oops"; parsed := Throw SyntaxError |}, SyntaxError.
  - discriminate Hload.
Qed.

Lemma load_stored_strings (item : StoredItem) (h : list string) :
  raw item ≠ "" → parsed item = Normal (VArr (VStr <$> h)) →
  load (Some item) initial = Loaded (ui (mounted h)).
Proof.
  intros Hraw Hparsed. unfold load.
  rewrite bool_decide_false by done. rewrite Hparsed. unfold as_strings.
  replace (mapM _ (VStr <$> h)) with (Some h); [done|].
  symmetry. apply mapM_Some. clear Hparsed.
  induction h as [|x h IH]; simpl; by constructor.
Qed.

(** C2, amended.  With nothing stored under the key, or with the empty
    string stored, the load completes and the history stays the empty
    list.  A stored non-empty text that [JSON.parse] rejects makes the
    effect throw that error; no history is set. *)
Theorem load_missing_or_corrupt (saved : option StoredItem) :
  (stored_missing saved ∨ (∃ item, saved = Some item ∧ raw item = "") →
     load saved initial = Loaded initial ∧ searchHistory initial = [])
  ∧ (∀ item e, saved = Some item → raw item ≠ "" → parsed item = Throw e →
       load saved initial = LoadThrew e).
Proof.
  split.
  - intros [->|(item & -> & Hraw)]; [done|].
    unfold load. by rewrite bool_decide_true.
  - intros item e -> Hraw Hparsed. unfold load.
    rewrite bool_decide_false by done. by rewrite Hparsed.
Qed.

Lemma load_missing_or_corrupt_witness :
  (load None initial = Loaded initial ∧ searchHistory initial = [])
  ∧ load (Some {| raw := "[1,"; parsed := Throw SyntaxError |}) initial
    = LoadThrew SyntaxError.
Proof.
  split.
  - apply (proj1 (load_missing_or_corrupt None)). left. reflexivity.
  - apply (proj2 (load_missing_or_corrupt
                    (Some {| raw := "[1,"; parsed := Throw SyntaxError |}))
             {| raw := "[1,"; parsed := Throw SyntaxError |} SyntaxError).
    + reflexivity.
    + simpl. discriminate.
    + reflexivity.
Defined.

(** ** Query controller *)

Section trim_properties.

Lemma trimStart_blank s : all_white_space s = true → trimStart s = "".
Proof.
  induction s as [|c s IH]; [done|]. simpl.
  intros [Hc Hs]%andb_prop. rewrite Hc. auto.
Qed.

Lemma trimStart_not_blank s : all_white_space s = false → trimStart s ≠ "".
Proof.
  induction s as [|c s IH]; [done|]. simpl.
  destruct (is_white_space c); simpl; [exact IH | done].
Qed.

Lemma trimStart_head s c t :
  trimStart s = String c t → is_white_space c = false.
Proof.
  induction s as [|c' s IH]; [done|]. simpl.
  destruct (is_white_space c') eqn:Hc'; [exact IH|].
  by intros [= <- _].
Qed.

Lemma trimEnd_keeps_head c t : is_white_space c = false → trimEnd (String c t) ≠ "".
Proof. intros Hc. simpl. destruct (trimEnd t); by rewrite ?Hc. Qed.

(** [trim] leaves nothing exactly of the strings made of white space. *)
Lemma trim_empty_iff s : trim s = "" ↔ all_white_space s = true.
Proof.
  unfold trim. split.
  - intros Htrim. destruct (all_white_space s) eqn:Hs; [done|].
    destruct (trimStart s) as [|c t] eqn:Hstart.
    + by apply trimStart_not_blank in Hs.
    + apply trimStart_head in Hstart. by apply (trimEnd_keeps_head c t) in Hstart.
  - intros Hs. by rewrite trimStart_blank.
Qed.

End trim_properties.

Section searchWord_properties.

Implicit Types (st : State) (word : string) (o : FetchOutcome).

Lemma begin_blank st word :
  trim word = "" → searchWord_begin word st = (Normal None, st).
Proof. intros H. unfold searchWord_begin. by rewrite bool_decide_true. Qed.

Lemma begin_not_blank st word :
  trim word ≠ "" →
  searchWord_begin word st
  = (Normal (Some (fetch_url word)),
     {| searchTerm := searchTerm st; wordData := wordData st; loading := true;
        error := None; searchHistory := searchHistory st |}).
Proof. intros H. unfold searchWord_begin. by rewrite bool_decide_false. Qed.

Lemma searchWord_not_blank st word o :
  trim word ≠ "" →
  searchWord word o st
  = searchWord_resume word o (after (searchWord_begin word) st).
Proof.
  intros H. unfold searchWord, after, mbind, M_bind.
  by rewrite begin_not_blank.
Qed.


Lemma resume_success st word first rest :
  searchWord_resume word
    (Normal {| ok := true; json := Normal (VArr (first :: rest)) |}) st
  = (Normal (),
     {| searchTerm := searchTerm st; wordData := first; loading := false;
        error := error st;
        searchHistory := History.record word (searchHistory st) |}).
Proof. done. Qed.


End searchWord_properties.



(** C4. For a term that is empty or made of white space only, the search
    issues no request and leaves the word record, the error, the loading
    flag and the history (the whole state) as they were. *)
Theorem blank_term_is_noop (st : State) (word : string) (o : FetchOutcome) :
  all_white_space word = true →
  searchWord_begin word st = (Normal None, st)
  ∧ searchWord word o st = (Normal (), st)
  ∧ ∀ c, call_searchWord word c = c.
Proof.
  intros Hblank%trim_empty_iff. split_and!.
  - by apply begin_blank.
  - unfold searchWord, mbind, M_bind. by rewrite begin_blank.
  - intros [u p]. unfold call_searchWord. by rewrite begin_blank.
Qed.

Lemma blank_term_is_noop_witness :
  searchWord_begin (String "009" "  ") initial = (Normal None, initial)
  ∧ searchWord (String "009" "  ") (Throw TypeError) initial
    = (Normal (), initial)
  ∧ ∀ c, call_searchWord (String "009" "  ") c = c.
Proof.
  apply (blank_term_is_noop initial (String "009" "  ") (Throw TypeError)).
  reflexivity.
Defined.







Section case_properties.

Lemma lower_unit_idemp c : lower_unit (lower_unit c) = lower_unit c.
Proof. by destruct c as [[] [] [] [] [] [] [] []]; vm_compute. Qed.

Lemma lower_unit_white_space c :
  is_white_space (lower_unit c) = is_white_space c.
Proof. by destruct c as [[] [] [] [] [] [] [] []]; vm_compute. Qed.

Lemma toLowerCase_idemp s : toLowerCase (toLowerCase s) = toLowerCase s.
Proof.
  induction s as [|c s IH]; [done|]. simpl. by rewrite lower_unit_idemp, IH.
Qed.

Lemma toLowerCase_white_space s :
  all_white_space (toLowerCase s) = all_white_space s.
Proof.
  induction s as [|c s IH]; [done|]. simpl.
  by rewrite lower_unit_white_space, IH.
Qed.

Lemma toLowerCase_not_blank s : trim s ≠ "" → trim (toLowerCase s) ≠ "".
Proof. rewrite !trim_empty_iff. by rewrite toLowerCase_white_space. Qed.

Lemma record_twice_distinct (a b : string) (h : list string) :
  a ≠ b → take 2 (History.record b (History.record a h)) = [b; a].
Proof.
  intros Hab. unfold History.record. cbn [take].
  by rewrite filter_cons_True.
Qed.

End case_properties.

(** C10. The history compares terms exactly and stores the term as it was
    typed, while the request uses the lower-cased term: a term with a
    capital in it and its lower-cased form are both looked up under the
    URL that ends in the lower-cased form, each request remembering the
    term as typed, and searching the first and then the second leaves two
    entries at the head of the history.  So it is for [Hello] and
    [hello]. *)
Theorem history_keeps_case_lookup_drops_it
    (st : State) (word : string)
    (first1 first2 : value) (rest1 rest2 : list value) :
  trim word ≠ "" →
  toLowerCase word ≠ word →
  let lower := toLowerCase word in
  let url := "https://api.dictionaryapi.dev/api/v2/entries/en/" +:+ lower in
  let st1 := after (searchWord word
                      (Normal {| ok := true;
                                 json := Normal (VArr (first1 :: rest1)) |}))
                   st in
  let st2 := after (searchWord lower
                      (Normal {| ok := true;
                                 json := Normal (VArr (first2 :: rest2)) |}))
                   st1 in
  (searchWord_begin word st).1 = Normal (Some url)
  ∧ (searchWord_begin lower st1).1 = Normal (Some url)
  ∧ (∀ c, pending (call_searchWord word c)
          = pending c ++ [{| req_word := word; req_url := url |}])
  ∧ (∀ c, pending (call_searchWord lower c)
          = pending c ++ [{| req_word := lower; req_url := url |}])
  ∧ take 2 (searchHistory st2) = [lower; word]
  ∧ (∀ h, take 2 (History.record lower (History.record word h))
          = [lower; word])
  ∧ toLowerCase "Hello" = "hello"
  ∧ fetch_url "Hello" = "https://api.dictionaryapi.dev/api/v2/entries/en/hello"
  ∧ fetch_url "hello" = "https://api.dictionaryapi.dev/api/v2/entries/en/hello"
  ∧ History.record "hello" (History.record "Hello" []) = ["hello"; "Hello"].
Proof.
  intros Hword Hcase lower url st1 st2.
  assert (Hlower : trim lower ≠ "") by by apply toLowerCase_not_blank.
  assert (Hurl : fetch_url lower = url).
  { unfold fetch_url, url, lower. by rewrite toLowerCase_idemp. }
  split_and!; try reflexivity.
  - by rewrite begin_not_blank.
  - rewrite begin_not_blank by done. simpl. by rewrite Hurl.
  - intros c. unfold call_searchWord. by rewrite begin_not_blank.
  - intros c. unfold call_searchWord. rewrite begin_not_blank by done.
    simpl. by rewrite Hurl.
  - unfold st2, st1, after. rewrite !searchWord_not_blank by done.
    unfold after. rewrite !begin_not_blank by done. simpl.
    by apply record_twice_distinct.
  - intros h. by apply record_twice_distinct.
Qed.

Lemma history_keeps_case_lookup_drops_it_witness :
  let url := "https://api.dictionaryapi.dev/api/v2/entries/en/hello" in
  let st1 := after (searchWord "Hello" (found "hello")) initial in
  let st2 := after (searchWord "hello" (found "hello")) st1 in
  (searchWord_begin "Hello" initial).1 = Normal (Some url)
  ∧ (searchWord_begin "hello" st1).1 = Normal (Some url)
  ∧ pending (call_searchWord "Hello" (mounted []))
    = [{| req_word := "Hello"; req_url := url |}]
  ∧ take 2 (searchHistory st2) = ["hello"; "Hello"].
Proof.
  intros url st1 st2.
  destruct (history_keeps_case_lookup_drops_it initial "Hello"
              (bare_record "hello") (bare_record "hello") [] []
              ltac:(vm_compute; discriminate)
              ltac:(vm_compute; discriminate))
    as (H1 & H2 & H3 & _ & H5 & _).
  split_and!; [exact H1 | exact H2 | exact (H3 (mounted [])) | exact H5].
Defined.

(** ** One record or one error *)

Section presentation_invariant.

Implicit Types (c : Config) (st : State) (events : list Event).

(** A settled request either leaves the error as it finds it, or clears
    the word record. *)
Lemma resume_error_or_cleared st word o :
  let st' := after (searchWord_resume word o) st in
  error st' = error st ∨ wordData st' = VNull.
Proof.
  cbv zeta.
  unfold after, searchWord_resume, try_catch_finally, mbind, M_bind, await,
    evaluate.
  destruct o as [[[] [data|e]]|e]; simpl; auto.
  destruct (member0 data); simpl; auto.
Qed.

Lemma inv_shows_one c :
  one_at_a_time_inv c →
  ¬ (shows_word (ui c) = true ∧ shows_error (ui c) = true).
Proof.
  unfold one_at_a_time_inv, shows_error.
  destruct (pending c) as [|r [|r' p]]; [done| |done].
  intros ->. simpl. intros [_ ?]. done.
Qed.

Lemma inv_call_searchWord word c :
  pending c = [] → one_at_a_time_inv c →
  one_at_a_time_inv (call_searchWord word c).
Proof.
  intros Hp Hinv. unfold call_searchWord.
  destruct (decide (trim word = "")) as [Hblank|Hword].
  - rewrite begin_blank by done. unfold one_at_a_time_inv in *. simpl.
    by rewrite Hp in *.
  - rewrite begin_not_blank by done. unfold one_at_a_time_inv. simpl.
    by rewrite Hp.
Qed.

Lemma inv_step e c c' :
  (starts_search e = true → pending c = []) →
  one_at_a_time_inv c → step e c = Some c' → one_at_a_time_inv c'.
Proof.
  intros Hguard Hinv Hstep. destruct e as [text| |index|index o]; simpl in Hstep.
  - injection Hstep as <-. exact Hinv.
  - injection Hstep as <-. apply inv_call_searchWord; auto.
  - destruct (searchHistory (ui c) !! index) as [term|]; [|done].
    simpl in Hstep. injection Hstep as <-.
    apply inv_call_searchWord; [by apply Hguard|exact Hinv].
  - destruct (pending c !! index) as [r|] eqn:Hr; [|done].
    simpl in Hstep. injection Hstep as <-.
    unfold one_at_a_time_inv in *.
    destruct (pending c) as [|r0 [|r1 p]]; [done| |done].
    destruct index as [|index]; [|done]. simpl.
    unfold shows_error, shows_word.
    destruct (resume_error_or_cleared (ui c) (req_word r) o) as [He|Hw].
    + rewrite He, Hinv. simpl. by intros [_ ?].
    + rewrite Hw. simpl. by intros [? _].
Qed.

Lemma inv_run_one_at_a_time events c c' :
  one_at_a_time_inv c →
  run_one_at_a_time events c = Some c' → one_at_a_time_inv c'.
Proof.
  revert c. induction events as [|e events IH]; intros c Hinv Hrun.
  - by injection Hrun as <-.
  - simpl in Hrun.
    destruct (starts_search e && negb (bool_decide (pending c = [])))
      eqn:Hguard; [done|].
    destruct (step e c) as [c1|] eqn:Hstep; [|done]. simpl in Hrun.
    apply (IH c1); [|done]. eapply inv_step; [|done..].
    intros He. rewrite He in Hguard. simpl in Hguard.
    apply negb_false_iff in Hguard. by apply bool_decide_eq_true in Hguard.
Qed.

(** A run with one search at a time is a run of the component. *)
Lemma run_one_at_a_time_run events c c' :
  run_one_at_a_time events c = Some c' → run events c = Some c'.
Proof.
  revert c. induction events as [|e events IH]; intros c Hrun; [done|].
  simpl in *.
  destruct (starts_search e && negb (bool_decide (pending c = []))); [done|].
  destruct (step e c) as [c1|]; [|done]. simpl in *. by apply IH.
Qed.

End presentation_invariant.

(** C5, as claimed, fails: with a lookup started from a recent-search
    button while another one is pending, the earlier one failing and the
    later one succeeding leave the error message and a word record on
    screen together. *)
Lemma overlapping_lookups_show_both :
  ¬ (∀ events c,
       run events (mounted []) = Some c →
       ¬ (shows_word (ui c) = true ∧ shows_error (ui c) = true)).
Proof.
  intros H.
  pose (cat := Normal {| ok := true;
                         json := Normal (VArr [bare_record "cat"]) |}).
  pose (not_found := Normal {| ok := false; json := Normal (VObj []) |}).
  apply (H [Typed "cat"; Submitted; Settled 0 cat;
            Typed "qzx"; Submitted; HistoryClicked 0;
            Settled 0 not_found; Settled 0 cat]
           {| ui := {| searchTerm := "cat";
                       wordData := bare_record "cat";
                       loading := false;
                       error := Some not_found_message;
                       searchHistory := ["cat"] |};
              pending := [] |}).
  - reflexivity.
  - split; reflexivity.
Qed.

(** C5, amended.  Every search attempt for a term that is not blank clears
    the previous error before its request settles (the request is still
    pending when the error is clear).  In every state reached by runs that
    start a search only while no lookup is pending, a word record and an
    error message are not shown together. *)
Theorem one_lookup_at_a_time_shows_one
    (h : list string) (events : list Event) (c : Config) :
  run_one_at_a_time events (mounted h) = Some c →
  run events (mounted h) = Some c
  ∧ ¬ (shows_word (ui c) = true ∧ shows_error (ui c) = true)
  ∧ ∀ c0 word,
      trim word ≠ "" →
      let c' := call_searchWord word c0 in
      error (ui c') = None
      ∧ shows_error (ui c') = false
      ∧ pending c'
        = pending c0 ++ [{| req_word := word; req_url := fetch_url word |}].
Proof.
  intros Hrun. split_and!.
  - by apply run_one_at_a_time_run.
  - apply inv_shows_one. eapply inv_run_one_at_a_time; [|exact Hrun].
    unfold one_at_a_time_inv. simpl. by intros [? _].
  - intros c0 word Hword. cbv zeta. unfold call_searchWord.
    by rewrite begin_not_blank.
Qed.

Lemma one_lookup_at_a_time_shows_one_witness :
  let not_found := Normal {| ok := false; json := Normal (VObj []) |} in
  let c := {| ui := {| searchTerm := "qzx"; wordData := VNull;
                       loading := false;
                       error := Some not_found_message;
                       searchHistory := [] |};
              pending := [] |} in
  run [Typed "qzx"; Submitted; Settled 0 not_found] (mounted []) = Some c
  ∧ ¬ (shows_word (ui c) = true ∧ shows_error (ui c) = true)
  ∧ error (ui (call_searchWord "cat" c)) = None.
Proof.
  intros not_found c.
  destruct (one_lookup_at_a_time_shows_one []
              [Typed "qzx"; Submitted; Settled 0 not_found] c
              ltac:(reflexivity))
    as (Hrun & Hone & Hclear).
  split_and!; [exact Hrun | exact Hone |].
  apply (Hclear c "cat"). vm_compute. discriminate.
Defined.

(** ** Result renderer *)

(** C7, as claimed, fails: when the first phonetic entry has no text and a
    later one has, no phonetic spelling is shown. *)
Lemma phonetic_text_not_first_available :
  ¬ (∀ w : WordData,
       phonetic_line (render_word w) = first_available_text (phonetics w)).
Proof.
  intros H.
  specialize (H {| word := "hello";
                   phonetics := [ {| text := None; audio := Some "hello.mp3" |};
                                  {| text := Some "/helo/"; audio := None |} ];
                   meanings := [];
                   origin := None |}).
  discriminate H.
Qed.

(** C7, amended.  The renderer shows as phonetic spelling the text of the
    first phonetic entry when that entry carries a non-empty text (it is
    then the first available text); when the first entry carries none, or
    there is no entry, it shows no phonetic spelling, whatever the later
    entries carry. *)
Theorem phonetic_text_of_first_entry (w : WordData) :
  (∀ p rest t,
     phonetics w = p :: rest → text p = Some t → t ≠ "" →
     phonetic_line (render_word w) = Some t
     ∧ first_available_text (phonetics w) = Some t)
  ∧ (∀ p rest,
       phonetics w = p :: rest → truthy_str (text p) = false →
       phonetic_line (render_word w) = None)
  ∧ (phonetics w = [] → phonetic_line (render_word w) = None).
Proof.
  split_and!.
  - intros p rest t Hps Ht Hne. simpl. rewrite Hps. simpl.
    unfold when_truthy, first_available_text. simpl. rewrite Ht. simpl.
    by rewrite bool_decide_false.
  - intros p rest Hps Ht. simpl. rewrite Hps. simpl.
    unfold when_truthy. by rewrite Ht.
  - intros Hps. simpl. by rewrite Hps.
Qed.

Lemma phonetic_text_of_first_entry_witness :
  phonetic_line
    (render_word {| word := "hello";
                    phonetics := [ {| text := Some "/helo/"; audio := None |};
                                   {| text := Some "/hElo/"; audio := None |} ];
                    meanings := []; origin := None |})
  = Some "/helo/"
  ∧ phonetic_line
      (render_word {| word := "hello";
                      phonetics := [ {| text := None; audio := None |};
                                     {| text := Some "/helo/"; audio := None |} ];
                      meanings := []; origin := None |})
    = None.
Proof.
  split.
  - apply (proj1 (phonetic_text_of_first_entry _)
             {| text := Some "/helo/"; audio := None |}
             [ {| text := Some "/hElo/"; audio := None |} ] "/helo/");
      [reflexivity | reflexivity | discriminate].
  - apply (proj1 (proj2 (phonetic_text_of_first_entry _))
             {| text := None; audio := None |}
             [ {| text := Some "/helo/"; audio := None |} ]);
      reflexivity.
Defined.

Section numbering.

Lemma imap_numbers (f : nat → Definition_ → DefinitionView) (k : nat)
    (ds : list Definition_) :
  (∀ i d, number (f i d) = k + i) →
  number <$> imap f ds = seq k (length ds).
Proof.
  revert f k. induction ds as [|d ds IH]; intros f k Hf; [done|].
  simpl. rewrite Hf, Nat.add_0_r. f_equal.
  apply IH. intros i d'. simpl. rewrite Hf. lia.
Qed.

Lemma render_definitions_numbers ds :
  number <$> render_definitions ds = seq 1 (length ds).
Proof.
  apply imap_numbers. intros i d. simpl. lia.
Qed.

Lemma render_definitions_bodies ds :
  body <$> render_definitions ds = definition <$> ds.
Proof.
  unfold render_definitions. rewrite fmap_imap.
  change (λ n : nat, body ∘ render_definition n) with
    (λ (_ : nat), definition). apply imap_const.
Qed.

Lemma related_line_long (xs : list string) :
  5 < length xs →
  related_line (Some xs) = Some (join ", " (take 5 xs))
  ∧ length (take 5 xs) = 5
  ∧ take 5 xs `prefix_of` xs.
Proof.
  intros Hlen. split_and!.
  - unfold related_line. rewrite bool_decide_true by lia. done.
  - rewrite length_take. lia.
  - apply prefix_take.
Qed.

End numbering.

(** C8. For every meaning, the definitions are shown in their order and
    numbered 1, 2, 3, ... without gaps; and for every definition, a list
    of synonyms or of antonyms longer than five is shown as its first five
    elements, in their order, joined with a comma and a space. *)
Theorem definitions_numbered_related_truncated (m : Meaning) :
  number <$> items (render_meaning m) = seq 1 (length (definitions m))
  ∧ body <$> items (render_meaning m) = definition <$> definitions m
  ∧ ∀ i d,
      definitions m !! i = Some d →
      ∃ v, items (render_meaning m) !! i = Some v
           ∧ number v = i + 1
           ∧ body v = definition d
           ∧ (∀ xs, synonyms d = Some xs → 5 < length xs →
                synonyms_line v = Some (join ", " (take 5 xs))
                ∧ length (take 5 xs) = 5
                ∧ take 5 xs `prefix_of` xs)
           ∧ (∀ xs, antonyms d = Some xs → 5 < length xs →
                antonyms_line v = Some (join ", " (take 5 xs))
                ∧ length (take 5 xs) = 5
                ∧ take 5 xs `prefix_of` xs).
Proof.
  split_and!.
  - apply render_definitions_numbers.
  - apply render_definitions_bodies.
  - intros i d Hd. exists (render_definition i d). split_and!.
    + simpl. unfold render_definitions. by rewrite list_lookup_imap, Hd.
    + done.
    + done.
    + intros xs Hxs Hlen. simpl. rewrite Hxs. by apply related_line_long.
    + intros xs Hxs Hlen. simpl. rewrite Hxs. by apply related_line_long.
Qed.

Lemma definitions_numbered_related_truncated_witness :
  let d1 := {| definition := "a greeting";
               example := Some "hello there";
               synonyms := Some ["hi"; "hey"; "howdy"; "hiya"; "yo"; "greetings"];
               antonyms := Some ["bye"; "farewell"; "adieu"; "ciao"; "later";
                                 "cheerio"; "goodbye"] |} in
  let d2 := {| definition := "a call for attention";
               example := None; synonyms := None; antonyms := Some [] |} in
  let m := {| partOfSpeech := "noun"; definitions := [d1; d2] |} in
  number <$> items (render_meaning m) = [1; 2]
  ∧ ∃ v, items (render_meaning m) !! 0 = Some v
         ∧ synonyms_line v = Some "hi, hey, howdy, hiya, yo"
         ∧ antonyms_line v = Some "bye, farewell, adieu, ciao, later".
Proof.
  intros d1 d2 m.
  destruct (definitions_numbered_related_truncated m) as (Hnum & _ & Hdef).
  split; [exact Hnum|].
  destruct (Hdef 0 d1 eq_refl) as (v & Hv & _ & _ & Hsyn & Hant).
  exists v. split_and!.
  - exact Hv.
  - apply (Hsyn ["hi"; "hey"; "howdy"; "hiya"; "yo"; "greetings"] eq_refl).
    simpl. lia.
  - apply (Hant ["bye"; "farewell"; "adieu"; "ciao"; "later";
                 "cheerio"; "goodbye"] eq_refl).
    simpl. lia.
Defined.

(** * Further properties *)

Import Persistence Screen Invariants.

(** ** The history updater *)

Section record_more.

Implicit Types (w x : string) (h : list string).

Lemma filter_all_pass (P : string → Prop) `{!∀ y, Decision (P y)} h :
  Forall P h → filter P h = h.
Proof.
  induction 1 as [|y h Hy _ IH]; [done|].
  by rewrite filter_cons_True, IH.
Qed.

Lemma others_differ w h : Forall (λ item, item ≠ w) (filter (λ item, item ≠ w) h).
Proof. apply Forall_forall. intros y Hy%list_elem_of_filter. tauto. Qed.

Lemma record_unfold w h :
  History.record w h = w :: take 4 (filter (λ item, item ≠ w) h).
Proof. done. Qed.

Lemma filter_absent w h : w ∉ h → filter (λ item, item ≠ w) h = h.
Proof.
  intros Hw. apply filter_all_pass, Forall_forall. intros y Hy ->. done.
Qed.

Lemma front_others_permutation w h :
  NoDup h → w ∈ h → w :: filter (λ item, item ≠ w) h ≡ₚ h.
Proof.
  induction 1 as [|y h Hy Hnd IH]; intros Hw.
  - by apply elem_of_nil in Hw.
  - destruct (decide (y = w)) as [->|Hne].
    + rewrite filter_cons_False by (intros H; by apply H).
      by rewrite filter_absent.
    + rewrite filter_cons_True by done.
      apply elem_of_cons in Hw as [->|Hw]; [done|].
      rewrite Permutation_swap. by rewrite IH.
Qed.

End record_more.

(** X1. Searching again the term that heads the history changes nothing:
    [record] is idempotent. *)
Theorem record_idempotent (w : string) (h : list string) :
  History.record w (History.record w h) = History.record w h.
Proof.
  rewrite (record_unfold w h), (record_unfold w (w :: _)).
  rewrite filter_cons_False by (intros H; by apply H).
  rewrite filter_all_pass by apply Forall_take, others_differ.
  by rewrite take_take.
Qed.

(** X2. A term that is not in the history goes in front of it, and of the
    old entries the first four stay: a history of fewer than five entries
    keeps them all, and one of five distinct entries loses its last. *)
Theorem record_new_term_evicts_last (w : string) (h : list string) :
  w ∉ h →
  History.record w h = w :: take 4 h
  ∧ (length h < 5 → History.record w h = w :: h)
  ∧ (∀ oldest,
       length h = 5 → NoDup h → last h = Some oldest →
       oldest ∉ History.record w h).
Proof.
  intros Hw. rewrite record_unfold, filter_absent by done. split_and!.
  - done.
  - intros Hlen. by rewrite take_ge by lia.
  - intros oldest Hlen Hnd Hlast.
    destruct h as [|a [|b [|c [|d [|e [|f h]]]]]]; try done.
    simpl in Hlast. injection Hlast as <-. simpl.
    rewrite !NoDup_cons, !elem_of_cons in Hnd.
    rewrite !elem_of_cons in Hw. rewrite !elem_of_cons, elem_of_nil.
    intuition congruence.
Qed.

Lemma record_new_term_evicts_last_witness :
  History.record "f" ["e"; "d"; "c"; "b"; "a"] = ["f"; "e"; "d"; "c"; "b"]
  ∧ ("a" ∉ History.record "f" ["e"; "d"; "c"; "b"; "a"])
  ∧ History.record "f" ["e"; "d"] = ["f"; "e"; "d"].
Proof.
  assert (Hf : "f" ∉ ["e"; "d"; "c"; "b"; "a"]).
  { apply (bool_decide_unpack _). vm_compute. exact I. }
  assert (Hf' : "f" ∉ ["e"; "d"]).
  { apply (bool_decide_unpack _). vm_compute. exact I. }
  split_and!.
  - apply (record_new_term_evicts_last "f" ["e"; "d"; "c"; "b"; "a"] Hf).
  - apply (proj2 (proj2 (record_new_term_evicts_last "f"
                           ["e"; "d"; "c"; "b"; "a"] Hf)) "a").
    + reflexivity.
    + apply (bool_decide_unpack _). vm_compute. exact I.
    + reflexivity.
  - apply (proj1 (proj2 (record_new_term_evicts_last "f" ["e"; "d"] Hf'))).
    simpl. lia.
Defined.

(** X3. Searching again a term that is in a history of at most five distinct
    entries moves it to the front and loses no entry: the new history is a
    rearrangement of the old one. *)
Theorem record_known_term_keeps_all (w : string) (h : list string) :
  NoDup h → length h ≤ 5 → w ∈ h →
  History.record w h = w :: filter (λ item, item ≠ w) h
  ∧ History.record w h ≡ₚ h
  ∧ length (History.record w h) = length h.
Proof.
  intros Hnd Hlen Hw.
  pose proof (front_others_permutation w h Hnd Hw) as Hperm.
  assert (Heq : History.record w h = w :: filter (λ item, item ≠ w) h).
  { rewrite record_unfold. f_equal. apply take_ge.
    apply Permutation_length in Hperm. simpl in Hperm. lia. }
  rewrite Heq. split_and!; [done|done|by rewrite Hperm].
Qed.

Lemma record_known_term_keeps_all_witness :
  History.record "c" ["a"; "b"; "c"; "d"; "e"] ≡ₚ ["a"; "b"; "c"; "d"; "e"].
Proof.
  apply (record_known_term_keeps_all "c" ["a"; "b"; "c"; "d"; "e"]).
  - apply (bool_decide_unpack _). vm_compute. exact I.
  - simpl. lia.
  - apply (bool_decide_unpack _). vm_compute. exact I.
Defined.

(** X4. The new history is the term followed by old entries in their old
    order: [record] invents no entry and reorders none but the term. *)
Theorem record_sublist (w : string) (h : list string) :
  History.record w h `sublist_of` w :: h
  ∧ tail (History.record w h) `sublist_of` h
  ∧ ∀ x, x ∈ History.record w h → x = w ∨ x ∈ h.
Proof.
  assert (Htail : take 4 (filter (λ item, item ≠ w) h) `sublist_of` h).
  { etrans; [apply sublist_take|]. apply sublist_filter. }
  rewrite record_unfold. split_and!.
  - by apply sublist_skip.
  - done.
  - intros x [->|Hx]%elem_of_cons; [by left|right].
    by eapply elem_of_sublist.
Qed.

(** ** The component along its runs *)

Section run_invariants.

Implicit Types (c : Config) (st : State) (e : Event) (events : list Event).

Lemma run_invariant (P : Config → Prop) events c c' :
  (∀ e c1 c2, P c1 → step e c1 = Some c2 → P c2) →
  P c → run events c = Some c' → P c'.
Proof.
  intros Hstep. revert c. induction events as [|e events IH]; intros c HP Hrun.
  - by injection Hrun as <-.
  - simpl in Hrun. destruct (step e c) as [c1|] eqn:He; [|done].
    simpl in Hrun. eauto.
Qed.

Lemma run_one_at_a_time_invariant (P : Config → Prop) events c c' :
  (∀ e c1 c2,
     (starts_search e = true → pending c1 = []) →
     P c1 → step e c1 = Some c2 → P c2) →
  P c → run_one_at_a_time events c = Some c' → P c'.
Proof.
  intros Hstep. revert c. induction events as [|e events IH]; intros c HP Hrun.
  - by injection Hrun as <-.
  - simpl in Hrun.
    destruct (starts_search e && negb (bool_decide (pending c = [])))
      eqn:Hguard; [done|].
    destruct (step e c) as [c1|] eqn:He; [|done]. simpl in Hrun.
    apply (IH c1); [|done]. eapply Hstep; [|done..].
    intros Hs. rewrite Hs in Hguard. simpl in Hguard.
    apply negb_false_iff in Hguard. by apply bool_decide_eq_true in Hguard.
Qed.

Lemma call_searchWord_blank word c :
  trim word = "" → call_searchWord word c = c.
Proof.
  intros H. destruct c. unfold call_searchWord. by rewrite begin_blank.
Qed.

Lemma call_searchWord_not_blank word c :
  trim word ≠ "" →
  call_searchWord word c
  = {| ui := {| searchTerm := searchTerm (ui c); wordData := wordData (ui c);
                loading := true; error := None;
                searchHistory := searchHistory (ui c) |};
       pending := pending c
                  ++ [{| req_word := word; req_url := fetch_url word |}] |}.
Proof. intros H. unfold call_searchWord. by rewrite begin_not_blank. Qed.

Lemma call_searchWord_requests word c :
  Forall request_ok (pending c) →
  Forall request_ok (pending (call_searchWord word c)).
Proof.
  intros Hp. destruct (decide (trim word = "")) as [Hblank|Hword].
  - by rewrite call_searchWord_blank.
  - rewrite call_searchWord_not_blank by done. simpl.
    apply Forall_app. split; [done|]. by repeat constructor.
Qed.

Lemma resume_loading st word o :
  loading (after (searchWord_resume word o) st) = false.
Proof.
  unfold after, searchWord_resume, try_catch_finally, mbind, M_bind, await,
    evaluate.
  destruct o as [[[] [data|e]]|e]; simpl; auto.
  destruct (member0 data); simpl; auto.
Qed.

Lemma resume_completes st word o :
  (searchWord_resume word o st).1 = Normal ()
  ∧ searchTerm (after (searchWord_resume word o) st) = searchTerm st.
Proof.
  unfold after, searchWord_resume, try_catch_finally, mbind, M_bind, await,
    evaluate.
  destruct o as [[[] [data|e]]|e]; simpl; auto.
  destruct (member0 data); simpl; auto.
Qed.

Lemma record_entries (P : string → Prop) w (h : list string) :
  P w → Forall P h → Forall P (History.record w h).
Proof.
  intros Hw Hh. apply Forall_take. constructor; [done|].
  rewrite Forall_forall in Hh. apply Forall_forall.
  intros x Hx%list_elem_of_filter. apply Hh. tauto.
Qed.

Lemma record_keeps_NoDup w (h : list string) :
  NoDup h → NoDup (History.record w h).
Proof.
  intros Hnd. rewrite record_unfold. apply NoDup_cons. split.
  - intros Hin. apply elem_of_take in Hin as (i & Hi & _).
    apply list_elem_of_lookup_2, list_elem_of_filter in Hi. tauto.
  - apply (sublist_NoDup _ (filter (λ item, item ≠ w) h));
      [by apply NoDup_filter | apply sublist_take].
Qed.

Lemma step_requests_ok e c c' :
  Forall request_ok (pending c) → step e c = Some c' →
  Forall request_ok (pending c').
Proof.
  intros Hp Hstep. destruct e as [text| |index|index o]; simpl in Hstep.
  - by injection Hstep as <-.
  - injection Hstep as <-. by apply call_searchWord_requests.
  - destruct (searchHistory (ui c) !! index) as [term|]; [|done].
    simpl in Hstep. injection Hstep as <-. by apply call_searchWord_requests.
  - destruct (pending c !! index) as [r|]; [|done].
    simpl in Hstep. injection Hstep as <-. simpl.
    apply (Forall_delete _ _ _ Hp).
Qed.

Lemma step_terms_ok e c c' : terms_ok c → step e c = Some c' → terms_ok c'.
Proof.
  intros [Hp Hh] Hstep. destruct e as [text| |index|index o]; simpl in Hstep.
  - injection Hstep as <-. by split.
  - injection Hstep as <-. split.
    + by apply call_searchWord_requests.
    + by rewrite call_searchWord_history.
  - destruct (searchHistory (ui c) !! index) as [term|]; [|done].
    simpl in Hstep. injection Hstep as <-. split.
    + by apply call_searchWord_requests.
    + by rewrite call_searchWord_history.
  - destruct (pending c !! index) as [r|] eqn:Hr; [|done].
    simpl in Hstep. injection Hstep as <-. split; simpl.
    + apply (Forall_delete _ _ _ Hp).
    + destruct (resume_history (ui c) (req_word r) o) as [->| ->]; [done|].
      apply record_entries; [|done].
      by apply (Forall_lookup_1 _ _ _ _ Hp Hr).
Qed.

Lemma step_NoDup e c c' :
  NoDup (searchHistory (ui c)) → step e c = Some c' →
  NoDup (searchHistory (ui c')).
Proof.
  intros Hnd Hstep. destruct e as [text| |index|index o]; simpl in Hstep.
  - by injection Hstep as <-.
  - injection Hstep as <-. by rewrite call_searchWord_history.
  - destruct (searchHistory (ui c) !! index) as [term|]; [|done].
    simpl in Hstep. injection Hstep as <-. by rewrite call_searchWord_history.
  - destruct (pending c !! index) as [r|]; [|done].
    simpl in Hstep. injection Hstep as <-. simpl.
    destruct (resume_history (ui c) (req_word r) o) as [->| ->]; [done|].
    by apply record_keeps_NoDup.
Qed.

Lemma step_loading_pending e c c' :
  (loading (ui c) = true → pending c ≠ []) → step e c = Some c' →
  loading (ui c') = true → pending c' ≠ [].
Proof.
  intros Hinv Hstep. destruct e as [text| |index|index o]; simpl in Hstep.
  - by injection Hstep as <-.
  - injection Hstep as <-.
    destruct (decide (trim (searchTerm (ui c)) = "")) as [Hb|Hw].
    + by rewrite call_searchWord_blank.
    + rewrite call_searchWord_not_blank by done. simpl.
      intros _ Hnil. by apply app_nil in Hnil as [_ ?].
  - destruct (searchHistory (ui c) !! index) as [term|]; [|done].
    simpl in Hstep. injection Hstep as <-.
    destruct (decide (trim term = "")) as [Hb|Hw].
    + by rewrite call_searchWord_blank.
    + rewrite call_searchWord_not_blank by done. simpl.
      intros _ Hnil. by apply app_nil in Hnil as [_ ?].
  - destruct (pending c !! index) as [r|]; [|done].
    simpl in Hstep. injection Hstep as <-. simpl.
    by rewrite resume_loading.
Qed.

Lemma step_loading_tracks e c c' :
  (starts_search e = true → pending c = []) →
  loading_tracks_pending c → step e c = Some c' → loading_tracks_pending c'.
Proof.
  intros Hguard Hinv Hstep. unfold loading_tracks_pending in *.
  destruct e as [text| |index|index o]; simpl in Hstep.
  - by injection Hstep as <-.
  - injection Hstep as <-. specialize (Hguard eq_refl).
    destruct (decide (trim (searchTerm (ui c)) = "")) as [Hb|Hw].
    + by rewrite call_searchWord_blank.
    + rewrite call_searchWord_not_blank by done. simpl. by rewrite Hguard.
  - destruct (searchHistory (ui c) !! index) as [term|]; [|done].
    simpl in Hstep. injection Hstep as <-. specialize (Hguard eq_refl).
    destruct (decide (trim term = "")) as [Hb|Hw].
    + rewrite call_searchWord_blank by done. simpl. by rewrite Hguard in *.
    + rewrite call_searchWord_not_blank by done. simpl. by rewrite Hguard.
  - destruct (pending c !! index) as [r|] eqn:Hr; [|done].
    simpl in Hstep. injection Hstep as <-. simpl.
    destruct (pending c) as [|r0 [|r1 p]]; [done| |done].
    destruct index as [|index]; [|done]. simpl. apply resume_loading.
Qed.

End run_invariants.

(** X5. No request is ever issued for a blank term and every request goes
    to the URL of its own term, in every run; and, started from a history
    without blank entries, the history never holds a blank entry. *)
Theorem requests_and_history_never_blank
    (h : list string) (events : list Event) (c : Config) :
  run events (mounted h) = Some c →
  Forall (λ r, trim (req_word r) ≠ ""
               ∧ req_url r
                 = "https://api.dictionaryapi.dev/api/v2/entries/en/"
                   +:+ toLowerCase (req_word r))
         (pending c)
  ∧ (Forall (λ term, trim term ≠ "") h →
     Forall (λ term, trim term ≠ "") (searchHistory (ui c))).
Proof.
  intros Hrun. split.
  - apply (run_invariant (λ c, Forall request_ok (pending c))
             events (mounted h) c); [|by constructor|done].
    intros e c1 c2. apply step_requests_ok.
  - intros Hh.
    apply (run_invariant terms_ok events (mounted h) c); [|by split|done].
    intros e c1 c2. apply step_terms_ok.
Qed.

Lemma requests_and_history_never_blank_witness :
  let events := [Typed "  "; Submitted; Typed " Cat"; Submitted;
                 HistoryClicked 0; Settled 1 (found "dog")] in
  let c := {| ui := {| searchTerm := "dog";
                       wordData := bare_record "dog";
                       loading := false; error := None;
                       searchHistory := ["dog"] |};
              pending :=
                [{| req_word := " Cat";
                    req_url :=
                      "https://api.dictionaryapi.dev/api/v2/entries/en/ cat" |}] |} in
  run events (mounted ["dog"]) = Some c
  ∧ Forall (λ r, trim (req_word r) ≠ ""
                 ∧ req_url r
                   = "https://api.dictionaryapi.dev/api/v2/entries/en/"
                     +:+ toLowerCase (req_word r))
           (pending c)
  ∧ Forall (λ term, trim term ≠ "") (searchHistory (ui c)).
Proof.
  intros events c.
  destruct (requests_and_history_never_blank ["dog"] events c
              ltac:(reflexivity)) as [Hrequests Hhistory].
  split_and!; [reflexivity | exact Hrequests |].
  apply Hhistory. repeat constructor. vm_compute. discriminate.
Defined.

(** X6. A history without duplicates stays without duplicates: [record] keeps
    it so, and so does every run of the component. *)
Theorem history_stays_NoDup (h : list string) :
  NoDup h →
  (∀ w, NoDup (History.record w h))
  ∧ (∀ events c,
       run events (mounted h) = Some c → NoDup (searchHistory (ui c))).
Proof.
  intros Hnd. split.
  - intros w. by apply record_keeps_NoDup.
  - intros events c Hrun.
    apply (run_invariant (λ c, NoDup (searchHistory (ui c)))
             events (mounted h) c); [|done|done].
    intros e c1 c2. apply step_NoDup.
Qed.

Lemma history_stays_NoDup_witness :
  let found :=
    Normal {| ok := true; json := Normal (VArr [bare_record "c"]) |} in
  let c := {| ui := {| searchTerm := "c";
                       wordData := bare_record "c";
                       loading := false; error := None;
                       searchHistory := ["c"; "a"; "b"; "d"] |};
              pending := [] |} in
  NoDup (History.record "c" ["a"; "b"; "c"; "d"])
  ∧ run [HistoryClicked 2; Settled 0 found] (mounted ["a"; "b"; "c"; "d"])
    = Some c
  ∧ NoDup (searchHistory (ui c)).
Proof.
  intros found c.
  assert (Hnd : NoDup ["a"; "b"; "c"; "d"]).
  { apply (bool_decide_unpack _). vm_compute. exact I. }
  split_and!.
  - apply (proj1 (history_stays_NoDup ["a"; "b"; "c"; "d"] Hnd) "c").
  - reflexivity.
  - apply (proj2 (history_stays_NoDup ["a"; "b"; "c"; "d"] Hnd)
             [HistoryClicked 2; Settled 0 found] c).
    reflexivity.
Defined.

(** X7. While [loading] is set a request is pending, in every run.  With one
    lookup at a time the converse holds too, and at most one request is
    pending.  With overlapping lookups it fails: the first request to
    settle clears [loading] while the other is still pending. *)
Theorem loading_means_pending (h : list string) (events : list Event) :
  (∀ c, run events (mounted h) = Some c →
        loading (ui c) = true → pending c ≠ [])
  ∧ (∀ c, run_one_at_a_time events (mounted h) = Some c →
          (loading (ui c) = true ↔ pending c ≠ [])
          ∧ length (pending c) ≤ 1)
  ∧ (∃ events' c, run events' (mounted ["cat"]) = Some c
                  ∧ loading (ui c) = false ∧ pending c ≠ []).
Proof.
  split_and!.
  - intros c Hrun.
    apply (run_invariant (λ c, loading (ui c) = true → pending c ≠ [])
             events (mounted h) c); [|done|done].
    intros e c1 c2. apply step_loading_pending.
  - intros c Hrun.
    assert (Hinv : loading_tracks_pending c).
    { apply (run_one_at_a_time_invariant loading_tracks_pending
               events (mounted h) c); [|done|done].
      intros e c1 c2. apply step_loading_tracks. }
    unfold loading_tracks_pending in Hinv.
    destruct (pending c) as [|r [|r' p]]; [| |done].
    + rewrite Hinv. simpl. split; [done|lia].
    + rewrite Hinv. simpl. split; [done|lia].
  - exists [HistoryClicked 0; HistoryClicked 0; Settled 0 (Throw TypeError)].
    eexists. split; [vm_compute; reflexivity|].
    split; [reflexivity|discriminate].
Qed.

(** X8. Every recent-search button on screen, once the history holds no blank
    entry, starts a lookup when clicked: the term goes into the input box,
    [loading] is set, the error is cleared and a request for that term is
    pending. *)
Theorem recent_search_click_starts_lookup
    (h : list string) (events : list Event) (c : Config)
    (terms : list string) (index : nat) (term : string) :
  Forall (λ t, trim t ≠ "") h →
  run events (mounted h) = Some c →
  recent_searches (ui c) = Some terms →
  terms !! index = Some term →
  ∃ c', step (HistoryClicked index) c = Some c'
        ∧ searchTerm (ui c') = term
        ∧ loading (ui c') = true
        ∧ error (ui c') = None
        ∧ searchHistory (ui c') = searchHistory (ui c)
        ∧ pending c'
          = pending c ++ [{| req_word := term; req_url := fetch_url term |}].
Proof.
  intros Hh Hrun Hterms Hterm.
  assert (Hok : terms_ok c).
  { apply (run_invariant terms_ok events (mounted h) c); [|by split|done].
    intros e c1 c2. apply step_terms_ok. }
  unfold recent_searches in Hterms. case_bool_decide; [|done].
  injection Hterms as <-.
  assert (Hword : trim term ≠ "").
  { destruct Hok as [_ Hhist]. by apply (Forall_lookup_1 _ _ _ _ Hhist Hterm). }
  eexists. simpl. rewrite Hterm. simpl. split; [reflexivity|].
  by rewrite call_searchWord_not_blank.
Qed.

Lemma recent_search_click_starts_lookup_witness :
  ∃ c', step (HistoryClicked 1) (mounted ["cat"; "dog"]) = Some c'
        ∧ searchTerm (ui c') = "dog"
        ∧ loading (ui c') = true
        ∧ error (ui c') = None
        ∧ searchHistory (ui c') = ["cat"; "dog"]
        ∧ pending c' = [{| req_word := "dog"; req_url := fetch_url "dog" |}].
Proof.
  apply (recent_search_click_starts_lookup ["cat"; "dog"] []
           (mounted ["cat"; "dog"]) ["cat"; "dog"] 1 "dog").
  - repeat constructor; vm_compute; discriminate.
  - reflexivity.
  - reflexivity.
  - reflexivity.
Defined.

Lemma loading_means_pending_witness :
  let events := [Typed "cat"; Submitted] in
  let c := {| ui := {| searchTerm := "cat"; wordData := VNull;
                       loading := true; error := None;
                       searchHistory := [] |};
              pending := [{| req_word := "cat"; req_url := fetch_url "cat" |}] |} in
  run_one_at_a_time events (mounted []) = Some c
  ∧ pending c ≠ []
  ∧ (loading (ui c) = true ↔ pending c ≠ []).
Proof.
  intros events c.
  destruct (loading_means_pending [] events) as (Hall & Hone & _).
  split; [reflexivity|]. split.
  - apply (Hall c); reflexivity.
  - apply (Hone c). reflexivity.
Defined.

(** ** The form *)

(** X9. An enabled submit button always starts exactly one lookup, for the
    term in the input box, and is disabled by it; with a blank term the
    button is disabled and submitting would do nothing anyway. *)
Theorem enabled_submit_starts_one_lookup (c : Config) :
  (submit_disabled (ui c) = false →
   ∃ c', step Submitted c = Some c'
         ∧ pending c'
           = pending c ++ [{| req_word := searchTerm (ui c);
                              req_url := fetch_url (searchTerm (ui c)) |}]
         ∧ loading (ui c') = true
         ∧ submit_disabled (ui c') = true)
  ∧ (trim (searchTerm (ui c)) = "" →
     submit_disabled (ui c) = true ∧ step Submitted c = Some c).
Proof.
  unfold submit_disabled. split.
  - intros [Hl Hw%bool_decide_eq_false]%orb_false_elim.
    eexists. simpl. split; [reflexivity|].
    by rewrite call_searchWord_not_blank.
  - intros Hb. rewrite (bool_decide_true _ Hb), orb_true_r. simpl.
    by rewrite call_searchWord_blank.
Qed.

Lemma enabled_submit_starts_one_lookup_witness :
  let c := {| ui := {| searchTerm := "cat"; wordData := VNull;
                       loading := false; error := None;
                       searchHistory := [] |};
              pending := [] |} in
  (∃ c', step Submitted c = Some c'
         ∧ pending c' = [{| req_word := "cat"; req_url := fetch_url "cat" |}]
         ∧ loading (ui c') = true
         ∧ submit_disabled (ui c') = true)
  ∧ step Submitted (mounted []) = Some (mounted []).
Proof.
  intros c. split.
  - apply (proj1 (enabled_submit_starts_one_lookup c)). reflexivity.
  - apply (proj2 (enabled_submit_starts_one_lookup (mounted []))). reflexivity.
Defined.

(** ** The lookup, whatever the network answers *)

(** X10. [searchWord] never throws: whatever [fetch] and [response.json()] do,
    the call completes, leaves [loading] false and does not touch the
    input box. *)
Theorem searchWord_always_completes
    (st : State) (word : string) (o : FetchOutcome) :
  (searchWord word o st).1 = Normal ()
  ∧ loading (after (searchWord word o) st) = loading st && bool_decide (trim word = "")
  ∧ searchTerm (after (searchWord word o) st) = searchTerm st
  ∧ (searchWord_resume word o st).1 = Normal ()
  ∧ loading (after (searchWord_resume word o) st) = false
  ∧ searchTerm (after (searchWord_resume word o) st) = searchTerm st.
Proof.
  destruct (resume_completes st word o) as [Hr1 Hr2].
  split_and!; [| | |done|apply resume_loading|done].
  - destruct (decide (trim word = "")) as [Hb|Hw].
    + unfold searchWord, mbind, M_bind. by rewrite begin_blank.
    + rewrite searchWord_not_blank by done. apply resume_completes.
  - destruct (decide (trim word = "")) as [Hb|Hw].
    + unfold after, searchWord, mbind, M_bind. rewrite begin_blank by done.
      rewrite bool_decide_true by done. simpl. by rewrite andb_true_r.
    + unfold after. rewrite searchWord_not_blank by done.
      rewrite bool_decide_false by done. rewrite andb_false_r.
      apply resume_loading.
  - destruct (decide (trim word = "")) as [Hb|Hw].
    + unfold after, searchWord, mbind, M_bind. by rewrite begin_blank.
    + unfold after. rewrite searchWord_not_blank by done.
      etrans; [exact (proj2 (resume_completes _ word o))|].
      unfold after. by rewrite begin_not_blank.
Qed.

(** X11. A 2xx answer is taken as a success for every parsed body that can be
    indexed: the record becomes [data[0]] and the term is recorded, also
    when the body is no array.  Only for the body [null] the evaluation of
    [data[0]] throws, and the answer is reported like a failed lookup. *)
Theorem ok_answer_by_body (st : State) (word : string) (data : value) :
  let st' := after (searchWord_resume word
                      (Normal {| ok := true; json := Normal data |})) st in
  (data = VNull →
   wordData st' = VNull ∧ error st' = Some not_found_message
   ∧ searchHistory st' = searchHistory st)
  ∧ (data ≠ VNull → data ≠ VUndefined →
     member0 data = Normal (wordData st')
     ∧ error st' = error st
     ∧ searchHistory st' = History.record word (searchHistory st)).
Proof.
  cbv zeta.
  unfold after, searchWord_resume, try_catch_finally, mbind, M_bind, await,
    evaluate.
  split.
  - by intros ->.
  - intros Hn Hu. simpl.
    destruct (member0 data) as [v|e] eqn:Hm; [done|].
    by destruct data as [| | | |[]|[]|].
Qed.

Lemma ok_answer_by_body_witness :
  let answer data := Normal {| ok := true; json := Normal data |} in
  searchHistory (after (searchWord_resume "cat" (answer VNull)) initial) = []
  ∧ searchHistory (after (searchWord_resume "cat"
                            (answer (VObj [("title", VStr "No Definitions Found")])))
                         initial) = ["cat"].
Proof.
  intros answer. split.
  - apply (proj1 (ok_answer_by_body initial "cat" VNull) eq_refl).
  - apply (proj2 (ok_answer_by_body initial "cat"
                    (VObj [("title", VStr "No Definitions Found")]))).
    + discriminate.
    + discriminate.
Defined.

(** ** The word card *)

(** X12. The audio button is there exactly when some phonetic entry carries a
    non-empty audio URL, and it plays the first such URL: entries without
    audio before it are passed over. *)
Theorem audio_button_first_available (ps : list Phonetic) :
  (find_audio ps = None ↔ Forall (λ p, truthy_str (audio p) = false) ps)
  ∧ ∀ url,
      find_audio ps = Some url ↔
      ∃ i p, ps !! i = Some p ∧ audio p = Some url ∧ url ≠ ""
             ∧ ∀ j q, ps !! j = Some q → j < i → truthy_str (audio q) = false.
Proof.
  unfold find_audio. split.
  - destruct (list_find _ ps) as [[i p]|] eqn:Hfind.
    + apply list_find_Some in Hfind as (Hp & Ha & _).
      split.
      * intros Hnone. rewrite Hnone in Ha. done.
      * intros Hall. apply (Forall_lookup_1 _ _ _ _ Hall) in Hp. congruence.
    + apply list_find_None in Hfind. split; [intros _|done].
      eapply Forall_impl; [exact Hfind|]. intros p Hp. simpl in Hp.
      by destruct (truthy_str (audio p)).
  - intros url. destruct (list_find _ ps) as [[i p]|] eqn:Hfind.
    + apply list_find_Some in Hfind as (Hp & Ha & Hbefore). split.
      * intros Hurl. exists i, p. split_and!; [done|done| |].
        -- rewrite Hurl in Ha. simpl in Ha. intros ->. done.
        -- intros j q Hq Hj. specialize (Hbefore j q Hq Hj).
           by destruct (truthy_str (audio q)).
      * intros (i' & p' & Hp' & Ha' & Hne & Hbefore').
        assert (Htruthy : truthy_str (audio p') = true).
        { rewrite Ha'. simpl. by rewrite bool_decide_false. }
        destruct (Nat.lt_trichotomy i i') as [Hlt|[->|Hgt]].
        -- specialize (Hbefore' i p Hp Hlt). congruence.
        -- congruence.
        -- by specialize (Hbefore i' p' Hp' Hgt).
    + apply list_find_None in Hfind. split; [done|].
      intros (i & p & Hp & Ha & Hne & _).
      apply (Forall_lookup_1 _ _ _ _ Hfind) in Hp. simpl in Hp.
      exfalso. apply Hp. rewrite Ha. simpl. by rewrite bool_decide_false.
Qed.

Lemma audio_button_first_available_witness :
  find_audio [ {| text := Some "/helo/"; audio := Some "" |};
               {| text := None; audio := None |};
               {| text := None; audio := Some "hello-uk.mp3" |};
               {| text := None; audio := Some "hello-us.mp3" |} ]
  = Some "hello-uk.mp3".
Proof.
  apply (proj2 (audio_button_first_available _)).
  exists 2, {| text := None; audio := Some "hello-uk.mp3" |}.
  split_and!; [reflexivity|reflexivity|discriminate|].
  intros [|[|j]] q Hq Hj; [by injection Hq as <-|by injection Hq as <-|lia].
Defined.

(** X13. A synonyms or antonyms line is left out exactly when the list is
    absent or empty; a list of up to five entries is shown whole, and of a
    longer list nothing beyond the fifth entry has any effect. *)
Theorem related_line_shown (xs : option (list string)) :
  (related_line xs = None ↔ xs = None ∨ xs = Some [])
  ∧ (∀ l, xs = Some l → 0 < length l ≤ 5 →
          related_line xs = Some (join ", " l))
  ∧ (∀ l more, xs = Some (l ++ more) → length l = 5 →
               related_line xs = Some (join ", " l)).
Proof.
  unfold related_line. split_and!.
  - destruct xs as [[|x l]|]; simpl; split; intros H; try done;
      [by right | by destruct H | by left].
  - intros l -> [Hpos Hle]. rewrite bool_decide_true by done.
    by rewrite take_ge by lia.
  - intros l more -> Hlen.
    rewrite bool_decide_true by (rewrite length_app; lia).
    rewrite take_app_le by lia. by rewrite take_ge by lia.
Qed.

Lemma related_line_shown_witness :
  related_line (Some ["hi"; "hey"]) = Some "hi, hey"
  ∧ related_line (Some (["a"; "b"; "c"; "d"; "e"] ++ ["f"; "g"]))
    = Some "a, b, c, d, e".
Proof.
  split.
  - apply (proj1 (proj2 (related_line_shown (Some ["hi"; "hey"])))
             ["hi"; "hey"]).
    + reflexivity.
    + simpl. lia.
  - apply (proj2 (proj2 (related_line_shown _)) ["a"; "b"; "c"; "d"; "e"]
             ["f"; "g"]); reflexivity.
Defined.

(** X14. The card has one block for each meaning, in order, labelled with its
    part of speech, with one item for each definition; the numbering of
    the items starts again at 1 in every block. *)
Theorem meaning_blocks_follow_meanings (w : WordData) :
  headword (render_word w) = word w
  ∧ label <$> meaning_blocks (render_word w) = partOfSpeech <$> meanings w
  ∧ ∀ i m,
      meanings w !! i = Some m →
      ∃ b, meaning_blocks (render_word w) !! i = Some b
           ∧ label b = partOfSpeech m
           ∧ body <$> items b = definition <$> definitions m
           ∧ number <$> items b = seq 1 (length (definitions m)).
Proof.
  split_and!.
  - done.
  - simpl. rewrite <- list_fmap_compose. done.
  - intros i m Hm. exists (render_meaning m). split_and!.
    + simpl. by rewrite list_lookup_fmap, Hm.
    + done.
    + apply render_definitions_bodies.
    + apply render_definitions_numbers.
Qed.

Lemma meaning_blocks_follow_meanings_witness :
  let def s := {| definition := s; example := None;
                  synonyms := None; antonyms := None |} in
  let w := {| word := "run"; phonetics := [];
              meanings := [ {| partOfSpeech := "verb";
                               definitions := [def "to move fast"; def "to manage"] |};
                            {| partOfSpeech := "noun";
                               definitions := [def "a jog"] |} ];
              origin := None |} in
  ∃ b, meaning_blocks (render_word w) !! 1 = Some b
       ∧ label b = "noun"
       ∧ number <$> items b = [1].
Proof.
  intros def w.
  destruct (proj2 (proj2 (meaning_blocks_follow_meanings w)) 1
              {| partOfSpeech := "noun"; definitions := [def "a jog"] |}
              eq_refl) as (b & Hb & Hl & _ & Hn).
  exists b. split_and!; [exact Hb | exact Hl | exact Hn].
Defined.

(** ** The part-of-speech badge *)

Section badge.

Lemma lowered_inherited key :
  toLowerCase key = key → key ∈ object_prototype →
  key = "constructor" ∨ key = "__proto__".
Proof.
  intros Hlow Hin. unfold object_prototype in Hin.
  repeat (apply elem_of_cons in Hin as [->|Hin];
          [first [by left | by right | by vm_compute in Hlow]|]).
  by apply elem_of_nil in Hin.
Qed.

Lemma colors_classes key classes :
  colors !! key = Some classes →
  truthy_str (Some classes) = true ∧ classes ≠ default_color.
Proof.
  intros Hin%elem_of_list_to_map_2.
  repeat (apply elem_of_cons in Hin as [[= -> ->]|Hin]; [by split|]).
  by apply elem_of_nil in Hin.
Qed.

End badge.

(** X15. The badge class depends on the lower-cased part of speech only.  A
    name of the table gets its own class, in any letter case, and that is
    never the default one; any other name gets the grey default, except
    [constructor] and [__proto__]: for these two the lookup finds the
    property inherited from [Object.prototype], no class string. *)
Theorem badge_class_by_lowercase (pos : string) :
  let key := toLowerCase pos in
  (∀ classes,
     colors !! key = Some classes →
     getPartOfSpeechColor pos = ClassName classes ∧ classes ≠ default_color)
  ∧ (colors !! key = None → key ≠ "constructor" → key ≠ "__proto__" →
     getPartOfSpeechColor pos = ClassName default_color)
  ∧ (key = "constructor" ∨ key = "__proto__" →
     getPartOfSpeechColor pos = Inherited key)
  ∧ getPartOfSpeechColor (toLowerCase pos) = getPartOfSpeechColor pos.
Proof.
  cbv zeta. unfold getPartOfSpeechColor. split_and!.
  - intros classes Hc. rewrite Hc.
    destruct (colors_classes _ _ Hc) as [-> Hne]. done.
  - intros Hnone Hc Hp. rewrite Hnone.
    rewrite bool_decide_false; [done|].
    intros Hin. by destruct (lowered_inherited _ (toLowerCase_idemp pos) Hin).
  - by intros [-> | ->].
  - by rewrite toLowerCase_idemp.
Qed.

Lemma badge_class_by_lowercase_witness :
  getPartOfSpeechColor "Noun" = ClassName "bg-blue-100 text-blue-800"
  ∧ getPartOfSpeechColor "toString" = ClassName default_color
  ∧ getPartOfSpeechColor "Constructor" = Inherited "constructor".
Proof.
  split_and!.
  - apply (proj1 (badge_class_by_lowercase "Noun")). reflexivity.
  - apply (proj1 (proj2 (badge_class_by_lowercase "toString")));
      [reflexivity | discriminate | discriminate].
  - apply (proj1 (proj2 (proj2 (badge_class_by_lowercase "Constructor")))).
    left. reflexivity.
Defined.

(** ** The stored text *)

Section stored_text.

Implicit Types (s t x : string) (h : list string).

Lemma append_cons c s t : String c s +:+ t = String c (s +:+ t).
Proof. done. Qed.

Lemma append_empty_l s : "" +:+ s = s.
Proof. done. Qed.

Lemma append_assoc s t u : (s +:+ t) +:+ u = s +:+ (t +:+ u).
Proof.
  induction s as [|c s IH]; [done|]. by rewrite !append_cons, IH.
Qed.

Lemma append_empty_r s : s +:+ "" = s.
Proof. induction s as [|c s IH]; [done|]. by rewrite append_cons, IH. Qed.

Lemma read_quote_unit c s :
  read_elements (quote_unit c +:+ s) = put c (read_elements s).
Proof. destruct c as [[] [] [] [] [] [] [] []]; reflexivity. Qed.

Lemma read_quote_units x s y (l : list string) :
  read_elements s = Some (y :: l) →
  read_elements (quote_units x +:+ s) = Some ((x +:+ y) :: l).
Proof.
  intros Hs. induction x as [|c x IH].
  - exact Hs.
  - cbn [quote_units]. by rewrite append_assoc, read_quote_unit, IH.
Qed.

Lemma read_closing_quote_next t :
  read_elements (String dquote (String "," (String dquote t)))
  = l ← read_elements t; Some ("" :: l).
Proof. done. Qed.

Lemma stringify_tail y h :
  "," +:+ join "," (QuoteJSONString <$> y :: h) +:+ "]"
  = String "," (String dquote
      (quote_units y +:+ String dquote
         match h with
         | [] => "]"
         | _ => "," +:+ join "," (QuoteJSONString <$> h) +:+ "]"
         end)).
Proof.
  destruct h as [|z h]; cbn [fmap list_fmap join];
    unfold QuoteJSONString at 1;
    repeat (rewrite append_cons || rewrite append_empty_l
            || rewrite append_assoc);
    reflexivity.
Qed.

Lemma read_elements_stringify x h :
  read_elements
    (quote_units x +:+ String dquote
       match h with
       | [] => "]"
       | _ => "," +:+ join "," (QuoteJSONString <$> h) +:+ "]"
       end)
  = Some (x :: h).
Proof.
  revert x. induction h as [|y h IH]; intros x.
  - rewrite (read_quote_units x _ "" []) by done. by rewrite append_empty_r.
  - rewrite stringify_tail.
    rewrite (read_quote_units x _ "" (y :: h)).
    + by rewrite append_empty_r.
    + by rewrite read_closing_quote_next, IH.
Qed.

Lemma parse_stringify h : parse_string_array (JSON_stringify h) = Some h.
Proof.
  destruct h as [|x h]; [done|].
  pose proof (stringify_tail x h) as Htail.
  apply (f_equal (λ t, match t with String _ r => r | EmptyString => t end))
    in Htail.
  unfold JSON_stringify. rewrite append_cons, append_empty_l.
  etrans; [exact (f_equal (λ t, parse_string_array (String "[" t)) Htail)|].
  unfold parse_string_array.
  rewrite bool_decide_true by done. apply read_elements_stringify.
Qed.

Lemma stringify_not_empty h : JSON_stringify h ≠ "".
Proof. done. Qed.

End stored_text.

(** X16. The text the save effect writes is never empty and denotes the
    history: read back as a compact array of string literals it gives the
    same list, whatever characters the terms hold, so two histories never
    share a text. *)
Theorem stored_text_round_trip (h h' : list string) :
  parse_string_array (JSON_stringify h) = Some h
  ∧ JSON_stringify h ≠ ""
  ∧ (JSON_stringify h = JSON_stringify h' → h = h').
Proof.
  split_and!.
  - apply parse_stringify.
  - apply stringify_not_empty.
  - intros Heq. pose proof (parse_stringify h) as Hh.
    rewrite Heq, parse_stringify in Hh. by injection Hh.
Qed.

Lemma stored_text_round_trip_witness :
  let h := ["say " +:+ String dquote "hi"; String "009" (String backslash "n"); ""] in
  parse_string_array (JSON_stringify h) = Some h ∧ h = h.
Proof.
  intros h. destruct (stored_text_round_trip h h) as (Hparse & _ & Hinj).
  split; [exact Hparse | apply Hinj; reflexivity].
Defined.

(** X17. What the save effect writes, the load effect of the next mount reads
    back: given a [JSON.parse] that reads compact string arrays, loading
    after a save restores the history that was saved.  The save writes
    under its one key only, and a later save replaces the earlier text. *)
Theorem saved_history_reloads
    (parse : string → completion value) (st : State)
    (localStorage : gmap string string) :
  (∀ text h, parse_string_array text = Some h →
             parse text = Normal (VArr (VStr <$> h))) →
  load (getItem parse (persist st localStorage)) initial
    = Loaded (ui (mounted (searchHistory st)))
  ∧ persist st localStorage !! storage_key
    = Some (JSON_stringify (searchHistory st))
  ∧ (∀ key, key ≠ storage_key →
            persist st localStorage !! key = localStorage !! key)
  ∧ (∀ st', persist st' (persist st localStorage) = persist st' localStorage).
Proof.
  intros Hparse. unfold persist, getItem. split_and!.
  - rewrite lookup_insert_eq.
    apply (load_stored_strings
             {| raw := JSON_stringify (searchHistory st);
                parsed := parse (JSON_stringify (searchHistory st)) |}).
    + apply stringify_not_empty.
    + apply Hparse, parse_stringify.
  - apply lookup_insert_eq.
  - intros key Hkey. by apply lookup_insert_ne.
  - intros st'. apply insert_insert_eq.
Qed.

Lemma saved_history_reloads_witness :
  let st := {| searchTerm := "dog"; wordData := VNull; loading := false;
               error := None; searchHistory := ["dog"; "Cat"] |} in
  let localStorage : gmap string string := {["theme" := "dark"]} in
  load (getItem parse_compact (persist st localStorage)) initial
    = Loaded (ui (mounted ["dog"; "Cat"]))
  ∧ persist st localStorage !! "theme" = Some "dark".
Proof.
  intros st localStorage.
  assert (Hparse : ∀ text h, parse_string_array text = Some h →
                             parse_compact text = Normal (VArr (VStr <$> h))).
  { intros text h Hh. unfold parse_compact. by rewrite Hh. }
  destruct (saved_history_reloads parse_compact st localStorage Hparse)
    as (Hload & _ & Hother & _).
  split; [exact Hload|].
  rewrite (Hother "theme"); [reflexivity|discriminate].
Defined.

(** X18. The load effect takes a stored array of strings as it is, with no
    cap and keeping duplicates, and touches nothing but the history; the
    first lookup that succeeds afterwards brings the history back to five
    entries at most. *)
Theorem load_takes_stored_array
    (item : StoredItem) (h : list string) (st : State) :
  raw item ≠ "" →
  parsed item = Normal (VArr (VStr <$> h)) →
  load (Some item) st
    = Loaded {| searchTerm := searchTerm st; wordData := wordData st;
                loading := loading st; error := error st;
                searchHistory := h |}
  ∧ ∀ st1 word first rest,
      searchHistory st1 = h →
      length (searchHistory
                (after (searchWord_resume word
                          (Normal {| ok := true;
                                     json := Normal (VArr (first :: rest)) |}))
                       st1)) ≤ 5.
Proof.
  intros Hraw Hparsed. split.
  - unfold load. rewrite bool_decide_false by done. rewrite Hparsed.
    unfold as_strings.
    replace (mapM _ (VStr <$> h)) with (Some h); [done|].
    symmetry. apply mapM_Some. clear Hparsed.
    induction h as [|x h IH]; simpl; by constructor.
  - intros st1 word first rest _. unfold after. rewrite resume_success.
    simpl. apply record_length.
Qed.

Lemma load_takes_stored_array_witness :
  let h := ["a"; "b"; "a"; "c"; "d"; "e"; "f"] in
  let item := {| raw := "[...]"; parsed := Normal (VArr (VStr <$> h)) |} in
  load (Some item) initial = Loaded (ui (mounted h))
  ∧ length (searchHistory (ui (mounted h))) = 7.
Proof.
  intros h item. split; [|reflexivity].
  apply (proj1 (load_takes_stored_array item h initial
                  ltac:(discriminate) ltac:(reflexivity))).
Defined.

Lemma record_sublist_witness :
  History.record "c" ["a"; "b"; "c"] `sublist_of` ["c"; "a"; "b"; "c"]
  ∧ ("b" = "c" ∨ "b" ∈ ["a"; "b"; "c"]).
Proof.
  split.
  - apply (proj1 (record_sublist "c" ["a"; "b"; "c"])).
  - apply (proj2 (proj2 (record_sublist "c" ["a"; "b"; "c"])) "b").
    apply (bool_decide_unpack _). vm_compute. exact I.
Defined.
